(** * chapter_04/classification.py: indicator matrix, least squares,
      linear and quadratic discriminant classifiers

    The development follows the Python module function by function.

    Numbers.  numpy computes in binary64.  The embedding computes in an
    exact ordered field [F] (a [realFieldType]; the closed examples use
    [rat]), so rounding and overflow are not represented.  What numpy does
    at a zero divisor is represented: [0.0 / 0] is NaN and raises nothing,
    see [nanable] below.  [np.log] is a parameter [ln] of the development.

    Tables.  A pandas Series of labels is a sequence (or a tuple when its
    length is shared with a feature matrix), a feature DataFrame is a matrix
    ['M[F]_(n, p)] whose row [i] is observation [i], and a DataFrame that is
    built column by column under label keys is a sequence of named columns.
    Row and column counts that numpy and pandas compare at run time are
    types here, so a shape mismatch cannot be written.  A training table
    without rows goes through the same definitions as any other; what
    pandas' groupby does with it is not modelled apart, and the statements
    that need a class assume n > 0. *)

From HB Require Import structures.
From mathcomp Require Import boot order algebra.

Set Implicit Arguments.
Unset Strict Implicit.
Unset Printing Implicit Defensive.

Import Order.TTheory GRing.Theory Num.Theory.
Local Open Scope ring_scope.

(** ** Outcomes of a Python call *)

Inductive pyexn : Type := LinAlgError | KeyError | ValueError.

Inductive pyresult (A : Type) : Type :=
  | Returns (a : A)
  | Raises (e : pyexn).

Arguments Returns {A} a.
Arguments Raises {A} e.

Definition bind (A B : Type) (r : pyresult A) (k : A -> pyresult B) :
  pyresult B :=
  match r with
  | Returns a => k a
  | Raises e => Raises e
  end.

Notation "x <- r ;; k" := (bind r (fun x => k))
  (at level 100, r at next level, right associativity).

Definition raises (A : Type) (r : pyresult A) : bool :=
  if r is Raises _ then true else false.

Fixpoint mapM (A B : Type) (f : A -> pyresult B) (s : seq A) :
  pyresult (seq B) :=
  match s with
  | [::] => Returns [::]
  | x :: s' => y <- f x ;; ys <- mapM f s' ;; Returns (y :: ys)
  end.

(** A float, or an array of floats, is either finite, and then followed
    exactly, or NaN: for an array, NaN in every entry, which is what
    dividing an all-zero array by zero gives and what every later numpy
    operation on such an array keeps.  A label is NaN when pandas has no
    label to give. *)
Inductive nanable (A : Type) : Type :=
  | Val (a : A)
  | NaN.

Arguments Val {A} a.
Arguments NaN {A}.

Definition nanable_to_option (A : Type) (x : nanable A) : option A :=
  if x is Val a then Some a else None.

Definition option_to_nanable (A : Type) (x : option A) : nanable A :=
  if x is Some a then Val a else NaN.

Definition nanable_optionK (A : Type) :
  cancel (@nanable_to_option A) (@option_to_nanable A) :=
  fun x => match x with Val _ => erefl | NaN => erefl end.

HB.instance Definition _ (A : eqType) :=
  Equality.copy (nanable A) (can_type (@nanable_optionK A)).

(** ** Labels, class sets and the indicator matrix *)

Section Labels.

Variables (disp : Order.disp_t) (L : orderType disp).

(** [sorted(set(values))] *)
Definition classes_of (values : seq L) : seq L := sort <=%O (undup values).

(** A dict, a Series or a DataFrame keyed by labels: the entries in
    insertion order.  [d[key] = v] replaces the entry of [key] or appends a
    new one; [d[key]] raises KeyError when [key] is absent. *)
Definition keyed (V : Type) : Type := seq (L * V).

Fixpoint set_item (V : Type) (d : keyed V) (key : L) (v : V) : keyed V :=
  match d with
  | [::] => [:: (key, v)]
  | (c, old) :: d' =>
      if c == key then (c, v) :: d' else (c, old) :: set_item d' key v
  end.

Fixpoint get_item (V : Type) (d : keyed V) (key : L) : pyresult V :=
  match d with
  | [::] => Raises KeyError
  | (c, v) :: d' => if c == key then Returns v else get_item d' key
  end.

(** A DataFrame assembled by column assignment: its columns, each a
    sequence of cells. *)
Definition DataFrame (V : Type) : Type := keyed (seq V).

(** [values == cls], elementwise *)
Definition series_eq (values : seq L) (cls : L) : seq bool :=
  [seq v == cls | v <- values].

(** [y.astype(int)] *)
Definition astype_int (y : DataFrame bool) : DataFrame int :=
  [seq (c.1, [seq (nat_of_bool b)%:Z | b <- c.2]) | c <- y].

(** [indicator_matrix(values)].  No statement of the function raises, for
    any label sequence. *)
Definition indicator_matrix (values : seq L) : pyresult (DataFrame int) :=
  let classes := classes_of values in
  let y := foldl (fun y cls => set_item y cls (series_eq values cls))
                 [::] classes in
  Returns (astype_int y).

(** Entry of a frame at row [i] of the [j]-th column, and the sum of row [i]
    over the columns. *)
Definition cell (y : DataFrame int) (i j : nat) : int :=
  nth 0 (nth [::] (unzip2 y) j) i.

Definition row_sum (y : DataFrame int) (i : nat) : int :=
  \sum_(col <- y) nth 0 col.2 i.

End Labels.

(** ** Numeric helpers: argmax, inverse, covariance *)

Section Numeric.

Variables (disp : Order.disp_t) (L : orderType disp).
Variable F : realFieldType.

(** [numpy.argmax]: a left-to-right scan that moves only to a strictly
    larger entry, so the first position of the maximum is returned. *)
Fixpoint argmax_from (best : F) (ibest i : nat) (s : seq F) : nat :=
  match s with
  | [::] => ibest
  | x :: s' =>
      if best < x then argmax_from x i i.+1 s'
      else argmax_from best ibest i.+1 s'
  end.

Definition np_argmax (s : seq F) : option nat :=
  if s is x :: s' then Some (argmax_from x 0 1 s') else None.

(** [row.idxmax()] for a row of finite scores whose index is [index]: the
    label at the position of the first maximum.  A row without columns has
    no label. *)
Definition idxmax (index : seq L) (scores : seq F) : nanable L :=
  if np_argmax scores is Some i then
    (if drop i index is c :: _ then Val c else NaN)
  else NaN.

(** Row [i] of a score table, left to right. *)
Definition row_seq (m k : nat) (S : 'M[F]_(m, k)) (i : 'I_m) : seq F :=
  [seq S i j | j <- enum 'I_k].

(** [df.apply(lambda row: row.idxmax(), axis=1)] on a table of finite
    scores with columns [index]. *)
Definition apply_idxmax (m k : nat) (index : seq L) (S : 'M[F]_(m, k)) :
  'I_m -> nanable L :=
  fun i => idxmax index (row_seq S i).

(** [np.linalg.inv] of a finite square array: LinAlgError when the matrix
    is singular. *)
Definition np_linalg_inv (q : nat) (A : 'M[F]_q) : pyresult 'M[F]_q :=
  if A \in unitmx then Returns (invmx A) else Raises LinAlgError.

(** [np.linalg.inv] of an array that may be all NaN: LAPACK reports an
    error only at an exactly zero pivot, so NaN goes through. *)
Definition np_linalg_inv_nan (q : nat) (A : nanable 'M[F]_q) :
  pyresult (nanable 'M[F]_q) :=
  match A with
  | Val A => A' <- np_linalg_inv A ;; Returns (Val A')
  | NaN => Returns NaN
  end.

(** What [np.cov] hands back: it ends in [c.squeeze()], so a covariance of
    a single variable is a 0-dimensional array. *)
Inductive ndarray (q : nat) : Type :=
  | Array0d
  | Array2d (A : 'M[F]_q).

Arguments Array0d {q}.

(** [np.cov(X, rowvar=0, ddof=1)] for a table [X] of N observations (rows)
    of p variables.  numpy keeps a table of a single row as it is and reads
    it as ONE variable ([if not rowvar and X.shape[0] != 1: X = X.T]); the
    1-by-1 result is squeezed to 0 dimensions, as is the result for p = 1.
    Otherwise the column averages are subtracted and the cross products are
    divided by N - ddof.  (N = 0 does not occur below.) *)
Definition np_cov (p : nat) (X : seq 'rV[F]_p) : ndarray p :=
  let N := size X in
  if (N == 1)%N || (p == 1)%N then Array0d
  else
    let avg := N%:R^-1 *: \sum_(x <- X) x in
    Array2d ((N - 1)%:R^-1 *: \sum_(x <- X) (x - avg)^T *m (x - avg)).

(** [(s).mean()] of a boolean Series: NaN when the Series is empty. *)
Definition mean_bool (s : seq bool) : nanable F :=
  if size s == 0%N then NaN else Val ((count id s)%:R / (size s)%:R).

End Numeric.

Arguments Array0d {F q}.

(** ** The classifiers *)

Section Classifiers.

Variables (disp : Order.disp_t) (L : orderType disp).
Variable F : realFieldType.

(** [np.log]; it is applied to class frequencies and to determinants. *)
Variable ln : F -> F.

Variable p : nat.

(** The array of a frame of integers, read as [n] rows by [k] columns. *)
Definition frame_values (n k : nat) (y : DataFrame L int) : 'M[F]_(n, k) :=
  \matrix_(i < n, j < k) (cell y i j)%:~R.

(** The rows of a label-indexed table of row vectors, stacked. *)
Definition rows_values (k : nat) (t : keyed L 'rV[F]_p) : 'M[F]_(k, p) :=
  \matrix_(j < k) nth 0 (unzip2 t) j.

(** *** LeastSquaresClassifier *)

Record LeastSquaresClassifier : Type := {
  ls_classes : seq L;
  ls_betahat : 'M[F]_(p, size ls_classes)
}.

Definition LeastSquaresClassifier_init (n : nat) (coords : 'M[F]_(n, p))
    (values : n.-tuple L) : pyresult LeastSquaresClassifier :=
  let classes := classes_of values in
  value_indicator_matrix <- indicator_matrix values ;;
  inverse_cov <- np_linalg_inv (coords^T *m coords) ;;
  Returns {| ls_classes := classes;
             ls_betahat := inverse_cov *m coords^T
                           *m frame_values n (size classes)
                                value_indicator_matrix |}.

(** [yhat = samples.dot(self.betahat)] *)
Definition ls_scores (clf : LeastSquaresClassifier) (m : nat)
    (samples : 'M[F]_(m, p)) : 'M[F]_(m, size (ls_classes clf)) :=
  samples *m ls_betahat clf.

Definition ls_classify (clf : LeastSquaresClassifier) (m : nat)
    (samples : 'M[F]_(m, p)) : 'I_m -> nanable L :=
  let yhat := ls_scores clf samples in
  apply_idxmax (ls_classes clf) yhat.

(** *** Shared by the two discriminant classifiers *)

(** [x2[x2['y'] == cls]] without its y column: the observations labelled
    [cls], in row order. *)
Definition selected (n : nat) (coords : 'M[F]_(n, p)) (values : n.-tuple L)
    (cls : L) : seq 'rV[F]_p :=
  [seq row i coords | i <- enum 'I_n & tnth values i == cls].

(** [pd.Series(collections.Counter(values), index=classes) / values.size] *)
Definition class_probabilities (n : nat) (values : n.-tuple L) : keyed L F :=
  [seq (c, (count_mem c values)%:R / n%:R) | c <- classes_of values].

(** [x2.groupby('y').apply(lambda v: v.mean()).drop('y', 1)]: one row per
    label in ascending order, the average of the observations of the
    group. *)
Definition group_means (n : nat) (coords : 'M[F]_(n, p))
    (values : n.-tuple L) : keyed L 'rV[F]_p :=
  [seq (c, (size (selected coords values c))%:R^-1
           *: \sum_(x <- selected coords values c) x)
  | c <- classes_of values].

(** *** LinearDiscriminantClassifier *)

Record LinearDiscriminantClassifier : Type := {
  lda_classes : seq L;
  lda_probabilities : keyed L F;
  lda_means : keyed L 'rV[F]_p;
  lda_sigma : nanable 'M[F]_p;
  lda_sigma_inv : nanable 'M[F]_p;
  lda_constants : nanable 'rV[F]_(size lda_classes);
  lda_discrimination_matrix : nanable 'M[F]_(p, size lda_classes)
}.

(** One turn of [for idx, x in x2.iterrows()]. *)
Definition lda_sigma_step (means : keyed L 'rV[F]_p)
    (acc : pyresult 'M[F]_p) (x : 'rV[F]_p * L) : pyresult 'M[F]_p :=
  sigma <- acc ;;
  mu <- get_item means x.2 ;;
  let xv := x.1 - mu in
  Returns (sigma + xv^T *m xv).

(** [self.sigma /= (n - k)].  With a zero divisor numpy stores 0.0 / 0 =
    NaN and raises nothing; the array is all zero then (every observation
    is alone in its class and equals its class mean), and a 0-by-0 array
    has no entry to divide. *)
Definition lda_sigma_divide (sigma : 'M[F]_p) (d : nat) : nanable 'M[F]_p :=
  if (d == 0)%N && (0 < p)%N then NaN else Val (d%:R^-1 *: sigma).

Definition LinearDiscriminantClassifier_init (n : nat)
    (coords : 'M[F]_(n, p)) (values : n.-tuple L) :
    pyresult LinearDiscriminantClassifier :=
  let classes := classes_of values in
  let k := size classes in
  let probabilities := class_probabilities values in
  let x2 := [seq (row i coords, tnth values i) | i <- enum 'I_n] in
  let means := group_means coords values in
  sigma_sum <- foldl (lda_sigma_step means) (Returns 0) x2 ;;
  let sigma := lda_sigma_divide sigma_sum (n - k) in
  sigma_inv <- np_linalg_inv_nan sigma ;;
  let mu := rows_values k means in
  let log_prob : 'rV[F]_k :=
    \row_(j < k) ln (nth 0 (unzip2 probabilities) j) in
  Returns {|
    lda_classes := classes;
    lda_probabilities := probabilities;
    lda_means := means;
    lda_sigma := sigma;
    lda_sigma_inv := sigma_inv;
    (* [means * NaN] is NaN; its row sum is NaN before pandas 0.22 and 0
       from then on, which leaves log(prior).  The scores are NaN either
       way, through the discrimination matrix. *)
    lda_constants :=
      if sigma_inv is Val sinv then
        Val (\row_(j < k)
               (log_prob 0 j
                - 2%:R^-1 * \sum_(a < p) mu j a * (sinv *m mu^T) a j))
      else NaN;
    lda_discrimination_matrix :=
      if sigma_inv is Val sinv then Val (sinv *m mu^T) else NaN
  |}.

(** [df + self.constants]; with a NaN discrimination matrix every score
    is NaN. *)
Definition lda_scores (clf : LinearDiscriminantClassifier) (m : nat)
    (samples : 'M[F]_(m, p)) : nanable 'M[F]_(m, size (lda_classes clf)) :=
  match lda_discrimination_matrix clf, lda_constants clf with
  | Val dm, Val constants =>
      let df := samples *m dm in
      Val (\matrix_(i, j) (df i j + constants 0 j))
  | _, _ => NaN
  end.

(** [idxmax] of an all-NaN row is NaN. *)
Definition lda_classify (clf : LinearDiscriminantClassifier) (m : nat)
    (samples : 'M[F]_(m, p)) : 'I_m -> nanable L :=
  match lda_scores clf samples with
  | Val scores => apply_idxmax (lda_classes clf) scores
  | NaN => fun _ => NaN
  end.

(** *** QuadraticDiscriminantClassifier *)

Record QuadraticDiscriminantClassifier : Type := {
  qda_classes : seq L;
  qda_probabilities : keyed L F;
  qda_means : keyed L 'rV[F]_p;
  qda_covariance : keyed L 'M[F]_p;
  qda_covariance_inv : keyed L 'M[F]_p;
  qda_covariance_det : keyed L F;
  qda_constants : keyed L F
}.

(** The three dicts the fitting loop fills. *)
Definition qda_dicts : Type :=
  (keyed L 'M[F]_p * keyed L 'M[F]_p * keyed L F)%type.

(** One turn of [for cls in self.classes].  [np.linalg.inv] rejects a
    0-dimensional array with LinAlgError. *)
Definition qda_fit_class (n : nat) (coords : 'M[F]_(n, p))
    (values : n.-tuple L) (means : keyed L 'rV[F]_p)
    (acc : pyresult qda_dicts) (cls : L) : pyresult qda_dicts :=
  d <- acc ;;
  mu <- get_item means cls ;;
  match np_cov [seq x - mu | x <- selected coords values cls] with
  | Array0d => Raises LinAlgError
  | Array2d cov =>
      cov_inv <- np_linalg_inv cov ;;
      Returns (set_item d.1.1 cls cov,
               set_item d.1.2 cls cov_inv,
               set_item d.2 cls (\det cov))
  end.

Definition QuadraticDiscriminantClassifier_init (n : nat)
    (coords : 'M[F]_(n, p)) (values : n.-tuple L) :
    pyresult QuadraticDiscriminantClassifier :=
  let classes := classes_of values in
  let probabilities := class_probabilities values in
  let means := group_means coords values in
  d <- foldl (qda_fit_class coords values means)
             (Returns ([::], [::], [::])) classes ;;
  constants <- mapM (fun cls =>
                 pr <- get_item probabilities cls ;;
                 dt <- get_item d.2 cls ;;
                 Returns (cls, ln pr - 2%:R^-1 * ln dt)) classes ;;
  Returns {|
    qda_classes := classes;
    qda_probabilities := probabilities;
    qda_means := means;
    qda_covariance := d.1.1;
    qda_covariance_inv := d.1.2;
    qda_covariance_det := d.2;
    qda_constants := constants
  |}.

(** The score column of one class: [const - 0.5 * (xs * np.dot(sigma_inv,
    xs.T).T).sum(1)]. *)
Definition qda_column (clf : QuadraticDiscriminantClassifier) (m : nat)
    (samples : 'M[F]_(m, p)) (cls : L) : pyresult 'cV[F]_m :=
  const <- get_item (qda_constants clf) cls ;;
  mu <- get_item (qda_means clf) cls ;;
  let xs : 'M[F]_(m, p) := \matrix_(i, a) (samples i a - mu 0 a) in
  sigma_inv <- get_item (qda_covariance_inv clf) cls ;;
  Returns (\col_i (const
                   - 2%:R^-1 * \sum_(a < p) xs i a * (sigma_inv *m xs^T) a i)).

(** [pd.concat(columns, axis=1)] puts the columns side by side under their
    keys, in the order of [self.classes]; it raises ValueError when there
    is no column at all. *)
Definition qda_discriminant_matrix (m : nat) (columns : seq 'cV[F]_m) :
  'M[F]_(m, size columns) :=
  \matrix_(i, j) (nth 0 columns j) i 0.

Definition qda_classify (clf : QuadraticDiscriminantClassifier) (m : nat)
    (samples : 'M[F]_(m, p)) : pyresult ('I_m -> nanable L) :=
  columns <- mapM (qda_column clf samples) (qda_classes clf) ;;
  if columns is [::] then Raises ValueError
  else
    Returns (apply_idxmax (qda_classes clf)
               (qda_discriminant_matrix columns)).

(** *** The Classification interface

    The three classes derive from [base.Classification]; callers such as
    [classification_error_rate] use [classify] only. *)

Inductive Classification : Type :=
  | LeastSquares (clf : LeastSquaresClassifier)
  | LinearDiscriminant (clf : LinearDiscriminantClassifier)
  | QuadraticDiscriminant (clf : QuadraticDiscriminantClassifier).

Definition classes (clf : Classification) : seq L :=
  match clf with
  | LeastSquares c => ls_classes c
  | LinearDiscriminant c => lda_classes c
  | QuadraticDiscriminant c => qda_classes c
  end.

Definition classify (clf : Classification) (m : nat)
    (samples : 'M[F]_(m, p)) : pyresult ('I_m -> nanable L) :=
  match clf with
  | LeastSquares c => Returns (ls_classify c samples)
  | LinearDiscriminant c => Returns (lda_classify c samples)
  | QuadraticDiscriminant c => qda_classify c samples
  end.

(** Calling one of the three constructors. *)
Inductive method : Type := LS | LDA | QDA.

Definition fit (a : method) (n : nat) (coords : 'M[F]_(n, p))
    (values : n.-tuple L) : pyresult Classification :=
  match a with
  | LS => clf <- LeastSquaresClassifier_init coords values ;;
          Returns (LeastSquares clf)
  | LDA => clf <- LinearDiscriminantClassifier_init coords values ;;
           Returns (LinearDiscriminant clf)
  | QDA => clf <- QuadraticDiscriminantClassifier_init coords values ;;
           Returns (QuadraticDiscriminant clf)
  end.

(** The score table each [classify] takes its row maxima of, row by row:
    [yhat], [df + self.constants], [discriminant_matrix]. *)
Definition score_rows (clf : Classification) (m : nat)
    (samples : 'M[F]_(m, p)) : pyresult (nanable ('I_m -> seq F)) :=
  match clf with
  | LeastSquares c => Returns (Val (row_seq (ls_scores c samples)))
  | LinearDiscriminant c =>
      Returns (if lda_scores c samples is Val scores
               then Val (row_seq scores) else NaN)
  | QuadraticDiscriminant c =>
      columns <- mapM (qda_column c samples) (qda_classes c) ;;
      if columns is [::] then Raises ValueError
      else Returns (Val (row_seq (qda_discriminant_matrix columns)))
  end.

(** *** classification_error_rate *)

(** [yhat != values] is true in a row whose prediction is NaN; the mean of
    an empty comparison is NaN. *)
Definition classification_error_rate (clf : Classification) (m : nat)
    (coords : 'M[F]_(m, p)) (values : m.-tuple L) : pyresult (nanable F) :=
  yhat <- classify clf coords ;;
  Returns (mean_bool F
             [seq yhat i != Val (tnth values i) | i <- enum 'I_m]).

End Classifiers.

(** * Reference definitions

    What the statements below compare the code with: the indicator frame,
    class means, scatter and covariance matrices written as sums over the
    observations, and the fitted records written in closed form. *)

Section Reference.

Variables (disp : Order.disp_t) (L : orderType disp).
Variable F : realFieldType.
Variable ln : F -> F.
Variable p : nat.

(** One 0/1 column per class in ascending order. *)
Definition indicator_frame (values : seq L) : DataFrame L int :=
  [seq (c, [seq (nat_of_bool (v == c))%:Z | v <- values])
  | c <- classes_of values].

(** Position [r] holds the first maximum of [s]. *)
Definition first_max (s : seq F) (r : nat) : Prop :=
  [/\ (r < size s)%N,
      forall j, (j < size s)%N -> nth 0 s j <= nth 0 s r
    & forall j, (j < r)%N -> nth 0 s j < nth 0 s r].

(** The labels [apply(lambda row: row.idxmax(), axis=1)] gives for a score
    table handed over row by row. *)
Definition predict_rows (m : nat) (index : seq L)
    (rows : nanable ('I_m -> seq F)) : 'I_m -> nanable L :=
  match rows with
  | Val r => fun i => idxmax index (r i)
  | NaN => fun _ => NaN
  end.

(** The scalar u A v^T. *)
Definition bil (A : 'M[F]_p) (u v : 'rV[F]_p) : F := (u *m A *m v^T) 0 0.

Section TrainingSet.

Variables (n : nat) (coords : 'M[F]_(n, p)) (values : n.-tuple L).

Local Notation classes := (classes_of values).
Local Notation k := (size (classes_of values)).

(** The mean of the observations labelled [c]. *)
Definition class_mean (c : L) : 'rV[F]_p :=
  (count_mem c values)%:R^-1 *: \sum_(i < n | tnth values i == c) row i coords.

(** The 0/1 matrix of the labels, one column per class in ascending
    order. *)
Definition indicator_mx : 'M[F]_(n, k) :=
  \matrix_(i, j) (tnth values i == tnth (in_tuple classes) j)%:R.

(** Observation [i] minus the mean of its class. *)
Definition residual (i : 'I_n) : 'rV[F]_p :=
  row i coords - class_mean (tnth values i).

(** The sum over all observations of the outer product of the residual
    with itself, and that sum divided by n - k. *)
Definition within_scatter : 'M[F]_p :=
  \sum_(i < n) (residual i)^T *m residual i.

Definition pooled_covariance : 'M[F]_p := (n - k)%:R^-1 *: within_scatter.

(** The unbiased covariance of the observations labelled [c]: the outer
    products of their residuals, summed over the rows of that class only
    and divided by count - 1. *)
Definition class_scatter (c : L) : 'M[F]_p :=
  \sum_(i < n | tnth values i == c)
     (row i coords - class_mean c)^T *m (row i coords - class_mean c).

Definition class_covariance (c : L) : 'M[F]_p :=
  (count_mem c values - 1)%:R^-1 *: class_scatter c.

Definition class_prior (c : L) : F := (count_mem c values)%:R / n%:R.

(** What one turn of the QDA fitting loop needs to go through. *)
Definition qda_class_ok (c : L) : bool :=
  [&& (count_mem c values != 1)%N, (p != 1)%N
    & class_covariance c \in unitmx].

(** The LDA object for a given sigma and inverse. *)
Definition lda_record (sigma sigma_inv : nanable 'M[F]_p) :
  LinearDiscriminantClassifier L F p :=
  let probabilities := class_probabilities F values in
  let means := group_means coords values in
  let mu := rows_values k means in
  let log_prob : 'rV[F]_k :=
    \row_(j < k) ln (nth 0 (unzip2 probabilities) j) in
  {| lda_classes := classes;
     lda_probabilities := probabilities;
     lda_means := means;
     lda_sigma := sigma;
     lda_sigma_inv := sigma_inv;
     lda_constants :=
       if sigma_inv is Val sinv then
         Val (\row_(j < k)
                (log_prob 0 j
                 - 2%:R^-1 * \sum_(a < p) mu j a * (sinv *m mu^T) a j))
       else NaN;
     lda_discrimination_matrix :=
       if sigma_inv is Val sinv then Val (sinv *m mu^T) else NaN |}.

(** The QDA object when every class goes through. *)
Definition qda_record : QuadraticDiscriminantClassifier L F p :=
  {| qda_classes := classes;
     qda_probabilities := class_probabilities F values;
     qda_means := group_means coords values;
     qda_covariance := [seq (c, class_covariance c) | c <- classes];
     qda_covariance_inv :=
       [seq (c, invmx (class_covariance c)) | c <- classes];
     qda_covariance_det := [seq (c, \det (class_covariance c)) | c <- classes];
     qda_constants :=
       [seq (c, ln (class_prior c) - 2%:R^-1 * ln (\det (class_covariance c)))
       | c <- classes] |}.

Section Samples.

Variables (m : nat) (samples : 'M[F]_(m, p)).

(** The QDA score of row [i] for class [c]. *)
Definition qda_score (c : L) (i : 'I_m) : F :=
  ln (class_prior c) - 2%:R^-1 * ln (\det (class_covariance c))
  - 2%:R^-1 * bil (invmx (class_covariance c))
                  (row i samples - class_mean c)
                  (row i samples - class_mean c).

(** The LDA score of row [i] for class [c] under the inverse [A]. *)
Definition lda_score (A : 'M[F]_p) (c : L) (i : 'I_m) : F :=
  bil A (row i samples) (class_mean c)
  + (ln (class_prior c) - 2%:R^-1 * bil A (class_mean c) (class_mean c)).

End Samples.

End TrainingSet.

(** A training table written row by row: label and feature values. *)
Definition row_of (s : seq F) : 'rV[F]_p := \row_(j < p) nth 0 s j.

Definition table_coords (data : seq (L * seq F)) : 'M[F]_(size data, p) :=
  \matrix_(i < size data) row_of (tnth (in_tuple data) i).2.

Definition table_values (data : seq (L * seq F)) : (size data).-tuple L :=
  [tuple (tnth (in_tuple data) i).1 | i < size data].

End Reference.

(** * Transformed tables

    What the invariance statements below apply to a table: moving every row
    by one vector, taking the rows in another order, and the least-squares
    score of one sample row for one class. *)

Section Transformations.

Variables (disp : Order.disp_t) (L : orderType disp).
Variable F : realFieldType.
Variables (p n : nat).

(** The table whose every row is moved by the vector [t]. *)
Definition shift_rows (t : 'rV[F]_p) (X : 'M[F]_(n, p)) : 'M[F]_(n, p) :=
  \matrix_i (row i X + t).

(** A training table with its rows taken in the order [h 0, h 1, ...]. *)
Definition reorder_rows (h : 'I_n -> 'I_n) (X : 'M[F]_(n, p)) : 'M[F]_(n, p) :=
  \matrix_i row (h i) X.

Definition reorder_labels (h : 'I_n -> 'I_n) (values : n.-tuple L) :
  n.-tuple L :=
  [tuple tnth values (h i) | i < n].

(** The least-squares score of row [i] for class [c]: the entry of
    [samples.dot(betahat)] in row [i] and the column of [c]. *)
Definition ls_score (coords : 'M[F]_(n, p)) (values : n.-tuple L)
    (m : nat) (samples : 'M[F]_(m, p)) (c : L) (i : 'I_m) : F :=
  (row i samples *m invmx (coords^T *m coords) *m coords^T
   *m (\col_r (tnth values r == c)%:R)) 0 0.

End Transformations.

(** * Example tables *)

(** The closed examples need some function in the place of np.log; none of
    them depends on its values. *)
Definition example_log (x : rat) : rat := x - 1.

(** Two observations (1, 0) and (0, 1) with labels 0 and 1, and the sample
    (0, 0). *)
Definition unit_coords : 'M[rat]_(2, 2) := 1%:M.
Definition unit_values : 2.-tuple nat := [tuple 0%N; 1%N].
Definition zero_sample : 'M[rat]_(1, 2) := 0.

Definition unit_ls : LeastSquaresClassifier nat rat 2 :=
  {| ls_classes := classes_of unit_values;
     ls_betahat := invmx (unit_coords^T *m unit_coords) *m unit_coords^T
                   *m indicator_mx rat unit_values |}.

(** One observation (0) with label 0. *)
Definition single_coords : 'M[rat]_(1, 1) := 0.
Definition single_values : 1.-tuple nat := [tuple 0%N].
Definition single_sample : 'M[rat]_(1, 1) := 0.

(** Two classes of four observations in the plane: a cross around the
    origin labelled 0 and the same cross around (10, 10) labelled 1. *)
Definition cross_data : seq (nat * seq rat) :=
  [:: (0%N, [:: 1; 0]); (0%N, [:: -1; 0]);
      (0%N, [:: 0; 1]); (0%N, [:: 0; -1]);
      (1%N, [:: 11%:R; 10%:R]); (1%N, [:: 9%:R; 10%:R]);
      (1%N, [:: 10%:R; 11%:R]); (1%N, [:: 10%:R; 9%:R])].

Definition cross_coords : 'M[rat]_(size cross_data, 2) :=
  table_coords 2 cross_data.

Definition cross_values : (size cross_data).-tuple nat :=
  table_values cross_data.

Definition cross_qda : QuadraticDiscriminantClassifier nat rat 2 :=
  qda_record example_log cross_coords cross_values.

Definition cross_lda : LinearDiscriminantClassifier nat rat 2 :=
  lda_record example_log cross_coords cross_values
    (Val (pooled_covariance cross_coords cross_values))
    (Val (invmx (pooled_covariance cross_coords cross_values))).

(** Samples near the two centres, and the second unit observation. *)
Definition near_origin : 'M[rat]_(1, 2) := row_of 2 [:: 1; 2%:R].
Definition near_ten : 'M[rat]_(1, 2) := row_of 2 [:: 9%:R; 11%:R].
Definition second_unit : 'M[rat]_(1, 2) := row_of 2 [:: 0; 1].

(** Three observations with a constant first feature, labels 0, 0, 1. *)
Definition pair_data : seq (nat * seq rat) :=
  [:: (0%N, [:: 1; 0]); (0%N, [:: 1; 2%:R]); (1%N, [:: 1; 5%:R])].

Definition pair_coords : 'M[rat]_(size pair_data, 2) := table_coords 2 pair_data.

Definition pair_values : (size pair_data).-tuple nat := table_values pair_data.

(** Two observations (1, 0) and (1, 1): an intercept column and one
    feature. *)
Definition intercept_coords : 'M[rat]_(2, 2) :=
  \matrix_(i, j) (if (j : nat) == 0%N then 1 else (i : nat)%:R).

Definition intercept_ls : LeastSquaresClassifier nat rat 2 :=
  {| ls_classes := classes_of unit_values;
     ls_betahat := invmx (intercept_coords^T *m intercept_coords)
                   *m intercept_coords^T *m indicator_mx rat unit_values |}.

(** The map that doubles every feature. *)
Definition double : 'M[rat]_2 := 2%:R%:M.

(** Two more samples: (0, 3) and the centre (10, 10). *)
Definition third_unit : 'M[rat]_(1, 2) := row_of 2 [:: 0; 3%:R].
Definition at_ten : 'M[rat]_(1, 2) := row_of 2 [:: 10%:R; 10%:R].

(** * Properties *)


(** ** Class sets and the indicator matrix *)

Section LabelFacts.
Variables (disp : Order.disp_t) (L : orderType disp).
Implicit Types (values : seq L) (c : L).

Lemma mem_classes_of values : classes_of values =i values.
Proof. by move=> c; rewrite /classes_of mem_sort mem_undup. Qed.

Lemma classes_of_uniq values : uniq (classes_of values).
Proof. by rewrite /classes_of sort_uniq undup_uniq. Qed.

Lemma classes_of_sorted values : sorted <%O (classes_of values).
Proof.
by rewrite lt_sorted_uniq_le classes_of_uniq /classes_of sort_le_sorted.
Qed.

Lemma size_classes_of values : size (classes_of values) = size (undup values).
Proof. by rewrite /classes_of size_sort. Qed.

Lemma set_item_fresh (V : Type) (d : keyed L V) c (v : V) :
  c \notin unzip1 d -> set_item d c v = rcons d (c, v).
Proof.
elim: d => [|[c' v'] d IH] //=.
by rewrite inE negb_or eq_sym => /andP[/negPf-> /IH->].
Qed.

Lemma foldl_set_item (V : Type) (f : L -> V) (cs : seq L) (d : keyed L V) :
  uniq (unzip1 d ++ cs) ->
  foldl (fun y c => set_item y c (f c)) d cs = d ++ [seq (c, f c) | c <- cs].
Proof.
elim: cs d => [|c cs IH] d /=; first by rewrite !cats0.
rewrite -cat_rcons => Hu.
have Hc : c \notin unzip1 d.
  move: Hu; rewrite cat_rcons cat_uniq => /and3P[_ /hasPn Hh _].
  by apply/negP => Hin; move: (Hh c); rewrite mem_head => /(_ isT) /=; rewrite Hin.
rewrite set_item_fresh // IH ?cat_rcons //.
by rewrite /unzip1 map_rcons.
Qed.

Lemma get_item_map (V : Type) (f : L -> V) (cs : seq L) c :
  c \in cs -> get_item [seq (c', f c') | c' <- cs] c = Returns (f c).
Proof.
elim: cs => [|c' cs IH] //=; rewrite inE eq_sym.
by case: eqP => [->|_] //=; exact: IH.
Qed.

Lemma indicator_matrix_eq values :
  indicator_matrix values =
  Returns [seq (c, [seq (nat_of_bool (v == c))%:Z | v <- values])
          | c <- classes_of values].
Proof.
rewrite /indicator_matrix foldl_set_item /= ?classes_of_uniq //.
rewrite /astype_int -map_comp /series_eq; congr Returns.
by apply: eq_map => c /=; rewrite -map_comp.
Qed.

Lemma cell_indicator values (c0 : L) (i j : nat) :
  (i < size values)%N -> (j < size (classes_of values))%N ->
  cell (indicator_frame values) i j
  = (nat_of_bool (nth c0 values i == nth c0 (classes_of values) j))%:Z.
Proof.
move=> Hi Hj; rewrite /cell /indicator_frame /unzip2 -map_comp.
by rewrite (nth_map c0) //= (nth_map c0).
Qed.

Lemma sum_bool_count (T : Type) (b : T -> bool) (s : seq T) :
  \sum_(x <- s) (nat_of_bool (b x))%:Z = (count b s)%:Z :> int.
Proof.
elim: s => [|x s IH]; first by rewrite big_nil.
by rewrite big_cons IH /= PoszD.
Qed.

Lemma row_sum_indicator values (i : nat) :
  (i < size values)%N -> row_sum (indicator_frame values) i = 1.
Proof.
case Hv: values => [|v0 vs] //; rewrite -Hv => Hi.
rewrite /row_sum /indicator_frame big_map.
under eq_bigr => c _ do rewrite /= (nth_map v0) //.
rewrite sum_bool_count.
have /eq_count-> : (fun c => nth v0 values i == c) =1 pred1 (nth v0 values i).
  by move=> c /=; rewrite eq_sym.
by rewrite count_uniq_mem ?classes_of_uniq // mem_classes_of mem_nth.
Qed.

(** C2: for a label vector of length n with k distinct labels,
    [indicator_matrix] returns a frame of k columns of n cells, the columns
    named by the distinct labels in strictly ascending order; every cell is
    0 or 1, the cell of row i and column j is 1 exactly when label i is the
    j-th class, and every row sums to 1. *)
Theorem C2_indicator_matrix_spec values :
  exists M : DataFrame L int,
    [/\ indicator_matrix values = Returns M,
        unzip1 M = classes_of values /\ size M = size (undup values),
        sorted <%O (unzip1 M) /\ unzip1 M =i values,
        all (fun col => size col.2 == size values) M
      & forall (c0 : L) (i j : nat),
          (i < size values)%N -> (j < size M)%N ->
          [/\ cell M i j \in [:: 0; 1],
              (cell M i j == 1) = (nth c0 values i == nth c0 (unzip1 M) j)
            & row_sum M i = 1]].
Proof.
exists (indicator_frame values).
have Hz : unzip1 (indicator_frame values) = classes_of values.
  by rewrite /unzip1 /indicator_frame -map_comp map_id_in.
have Hs : size (indicator_frame values) = size (classes_of values).
  by rewrite size_map.
split; first exact: indicator_matrix_eq.
- by rewrite Hz Hs size_classes_of.
- rewrite Hz; split; first exact: classes_of_sorted.
  exact: mem_classes_of.
- by apply/allP => col /mapP[c _ ->] /=; rewrite size_map.
- move=> c0 i j Hi; rewrite Hs Hz => Hj.
  rewrite (cell_indicator c0) // row_sum_indicator //.
  by case: (nth c0 values i == _).
Qed.

(** C7, as the code has it: [indicator_matrix] raises for no label vector
    and returns the indicator frame; for the empty vector that is the frame
    without columns. *)
Theorem C7_indicator_matrix_never_raises values :
  [/\ ~~ raises (indicator_matrix values),
      indicator_matrix values = Returns (indicator_frame values)
    & indicator_matrix ([::] : seq L) = Returns [::]].
Proof. by rewrite indicator_matrix_eq. Qed.

End LabelFacts.

(** On the empty label vector nothing is raised. *)
Lemma C7_counterexample :
  ~ (raises (indicator_matrix ([::] : seq nat)) <-> ([::] : seq nat) = [::]).
Proof. by case=> _ /(_ erefl). Qed.

(** ** argmax and idxmax *)

Section ArgmaxFacts.
Variables (disp : Order.disp_t) (L : orderType disp).
Variable F : realFieldType.
Implicit Types (s pre : seq F) (index : seq L).

Lemma argmax_from_first_max s pre best ibest :
  first_max pre ibest -> best = nth 0 pre ibest ->
  first_max (pre ++ s) (argmax_from best ibest (size pre) s).
Proof.
elim: s pre best ibest => [|x s IH] pre best ibest; first by rewrite cats0.
move=> [Hlt Hmax Hfirst] Hbest /=; rewrite -cat_rcons.
have Hsz : size (rcons pre x) = (size pre).+1 by rewrite size_rcons.
have Hlast : nth 0 (rcons pre x) (size pre) = x by rewrite nth_rcons ltnn eqxx.
have Hold j : (j < size pre)%N -> nth 0 (rcons pre x) j = nth 0 pre j.
  by move=> Hj; rewrite nth_rcons Hj.
case: ifP => Hx; rewrite -Hsz; apply: IH.
- split=> [|j|j]; rewrite ?Hsz ?Hlast //.
  + rewrite ltnS leq_eqVlt => /orP[/eqP->|Hj]; first by rewrite Hlast.
    by rewrite Hold // (le_trans (Hmax _ Hj)) // -Hbest ltW.
  + by move=> Hj; rewrite Hold // (le_lt_trans (Hmax _ Hj)) // -Hbest.
- by [].
- split=> [|j|j]; rewrite ?Hsz ?(Hold _ Hlt) //.
  + exact: ltnW.
  + rewrite ltnS leq_eqVlt => /orP[/eqP->|Hj]; last by rewrite Hold // Hmax.
    by rewrite Hlast -Hbest leNgt Hx.
  + by move=> Hj; rewrite Hold ?Hfirst // (ltn_trans Hj Hlt).
- by rewrite Hold.
Qed.

Lemma np_argmax_first_max s :
  (0 < size s)%N -> exists2 r, np_argmax s = Some r & first_max s r.
Proof.
case: s => [|x s] // _; exists (argmax_from x 0 1 s) => //.
by apply: (@argmax_from_first_max s [:: x] x 0) => //; split=> // [] [].
Qed.

Lemma first_max_uniq s r r' : first_max s r -> first_max s r' -> r = r'.
Proof.
move=> [Hr Hmax Hfirst] [Hr' Hmax' Hfirst'].
case: (ltngtP r r') => // Hlt.
- by move: (Hfirst' _ Hlt); rewrite ltNge Hmax.
- by move: (Hfirst _ Hlt); rewrite ltNge Hmax'.
Qed.

Lemma idxmax_first_max index s (c0 : L) :
  size index = size s -> (0 < size s)%N ->
  exists2 r, idxmax index s = Val (nth c0 index r) & first_max s r.
Proof.
move=> Hsz /np_argmax_first_max[r Hr Hfm]; exists r => //.
rewrite /idxmax Hr; case: Hfm => Hlt _ _.
by rewrite (drop_nth c0) ?Hsz.
Qed.

Lemma size_row_seq (m k : nat) (S : 'M[F]_(m, k)) (i : 'I_m) :
  size (row_seq S i) = k.
Proof. by rewrite /row_seq size_map size_enum_ord. Qed.

Lemma nth_row_seq (m k : nat) (S : 'M[F]_(m, k)) (i : 'I_m) (j : 'I_k) :
  nth 0 (row_seq S i) j = S i j.
Proof.
by rewrite /row_seq (nth_map j) ?size_enum_ord // nth_ord_enum.
Qed.

(** In a sorted class list, positions and labels are ordered alike. *)
Lemma sorted_nth_le index (c0 : L) (i j : nat) :
  sorted <%O index -> (i <= j < size index)%N ->
  (nth c0 index i <= nth c0 index j)%O.
Proof.
move=> Hs /andP[Hij Hj].
have Hs' : sorted <=%O index by move: Hs; rewrite lt_sorted_uniq_le => /andP[].
by apply: (sorted_leq_nth le_trans le_refl) => //; rewrite inE (leq_ltn_trans Hij).
Qed.

End ArgmaxFacts.

(** ** Loops that may raise *)

Section MonadFacts.
Variables (A : eqType) (B : Type).

Lemma mapM_returns (f : A -> pyresult B) (g : A -> B) (s : seq A) :
  {in s, forall x, f x = Returns (g x)} ->
  mapM f s = Returns [seq g x | x <- s].
Proof.
elim: s => [|x s IH] //= Hf.
rewrite Hf ?mem_head //= IH // => y Hy.
by apply: Hf; rewrite inE Hy orbT.
Qed.

Lemma foldl_raises (f : pyresult B -> A -> pyresult B) (e : pyexn) (s : seq A) :
  (forall x, f (Raises e) x = Raises e) -> foldl f (Raises e) s = Raises e.
Proof. by move=> Hf; elim: s => [|x s IH] //=; rewrite Hf. Qed.

End MonadFacts.

(** ** Group means and the least-squares fit *)

Section FitFacts.
Variables (disp : Order.disp_t) (L : orderType disp).
Variable F : realFieldType.
Variable ln : F -> F.
Variables (p n : nat).
Variables (coords : 'M[F]_(n, p)) (values : n.-tuple L).

Local Notation classes := (classes_of values).
Local Notation k := (size (classes_of values)).
Local Notation class_mean := (class_mean coords values).
Local Notation indicator_mx := (indicator_mx F values).

(** The label sequence read back from the row numbers. *)
Lemma count_label (c : L) :
  count (fun i : 'I_n => tnth values i == c) (enum 'I_n) = count_mem c values.
Proof.
rewrite -[in RHS](map_tnth_enum values) count_map.
by apply: eq_count => i /=; rewrite eq_sym.
Qed.

Lemma size_selected (c : L) :
  size (selected coords values c) = count_mem c values.
Proof. by rewrite /selected size_map size_filter count_label. Qed.

Lemma sum_selected (V : zmodType) (f : 'rV[F]_p -> V) (c : L) :
  \sum_(x <- selected coords values c) f x
  = \sum_(i < n | tnth values i == c) f (row i coords).
Proof. by rewrite /selected big_map big_filter big_enum_cond. Qed.

Lemma count_label_gt0 (c : L) : c \in classes -> (0 < count_mem c values)%N.
Proof. by rewrite mem_classes_of -has_pred1 has_count. Qed.

Lemma size_classes_leq : (k <= n)%N.
Proof.
by rewrite size_classes_of (leq_trans (size_undup _)) // size_tuple.
Qed.

Lemma group_means_eq :
  group_means coords values = [seq (c, class_mean c) | c <- classes].
Proof.
by apply: eq_map => c; rewrite size_selected sum_selected.
Qed.

Lemma get_group_mean (c : L) :
  c \in classes ->
  get_item (group_means coords values) c = Returns (class_mean c).
Proof. by move=> Hc; rewrite group_means_eq get_item_map. Qed.

Lemma frame_values_indicator :
  frame_values F n k (indicator_frame values) = indicator_mx.
Proof.
apply/matrixP => i j; rewrite !mxE.
rewrite (cell_indicator (tnth values i)) ?size_tuple //.
by rewrite -tnth_nth (tnth_nth (tnth values i) (in_tuple _)) /=; case: (_ == _).
Qed.

Lemma ls_init_eq :
  LeastSquaresClassifier_init coords values =
  if coords^T *m coords \in unitmx then
    Returns {| ls_classes := classes;
               ls_betahat := invmx (coords^T *m coords) *m coords^T
                             *m indicator_mx |}
  else Raises LinAlgError.
Proof.
rewrite /LeastSquaresClassifier_init indicator_matrix_eq /= /np_linalg_inv.
by case: ifP => //= _; rewrite -/(indicator_frame values) frame_values_indicator.
Qed.

End FitFacts.

(** ** The LDA fit *)

Section LdaFacts.
Variables (disp : Order.disp_t) (L : orderType disp).
Variable F : realFieldType.
Variable ln : F -> F.
Variables (p n : nat).
Variables (coords : 'M[F]_(n, p)) (values : n.-tuple L).

Local Notation classes := (classes_of values).
Local Notation k := (size (classes_of values)).
Local Notation residual := (residual coords values).
Local Notation within_scatter := (within_scatter coords values).
Local Notation pooled_covariance := (pooled_covariance coords values).
Local Notation lda_record := (lda_record ln coords values).

Lemma label_in_classes (i : 'I_n) : tnth values i \in classes.
Proof. by rewrite mem_classes_of mem_tnth. Qed.

Lemma lda_sigma_loop (s : seq 'I_n) (A0 : 'M[F]_p) :
  foldl (lda_sigma_step (group_means coords values)) (Returns A0)
        [seq (row i coords, tnth values i) | i <- s]
  = Returns (A0 + \sum_(i <- s) (residual i)^T *m residual i).
Proof.
elim: s A0 => [|i s IH] A0 /=; first by rewrite big_nil addr0.
by rewrite get_group_mean ?label_in_classes //= IH big_cons addrA.
Qed.

Lemma lda_init_eq :
  LinearDiscriminantClassifier_init ln coords values =
  if (n == k) && (0 < p)%N then Returns (lda_record NaN NaN)
  else if pooled_covariance \in unitmx then
    Returns (lda_record (Val pooled_covariance)
                        (Val (invmx pooled_covariance)))
  else Raises LinAlgError.
Proof.
rewrite /LinearDiscriminantClassifier_init lda_sigma_loop add0r big_enum /=.
rewrite -/within_scatter /lda_sigma_divide subn_eq0.
have -> : (n <= k)%N = (n == k) by rewrite eqn_leq size_classes_leq andbT.
case: ifP => //= _; rewrite /np_linalg_inv -/pooled_covariance.
by case: ifP.
Qed.

(** When every class has a single observation the scatter is zero. *)
Lemma within_scatter_eq0 : n = k -> within_scatter = 0.
Proof.
move=> Hnk; have Hu : uniq values.
  apply: negbNE; rewrite -ltn_size_undup -size_classes_of -Hnk.
  by rewrite size_tuple ltnn.
rewrite /within_scatter big1 // => i _.
suff -> : residual i = 0 by rewrite mulmx0.
rewrite /residual /class_mean (count_uniq_mem _ Hu) mem_tnth invr1 scale1r.
rewrite (bigD1 i) //= big1 ?addr0 ?subrr // => j /andP[Hj Hne].
have [c0 Hc0] : exists c0, forall j', tnth values j' = nth c0 values j'.
  by exists (tnth values i) => j'; apply: tnth_nth.
move: Hj; rewrite !Hc0 nth_uniq ?size_tuple // => /eqP/val_inj/eqP.
by rewrite (negPf Hne).
Qed.

End LdaFacts.

(** ** The QDA fit *)

Section QdaFacts.
Variables (disp : Order.disp_t) (L : orderType disp).
Variable F : realFieldType.
Variable ln : F -> F.
Variables (p n : nat).
Variables (coords : 'M[F]_(n, p)) (values : n.-tuple L).

Local Notation classes := (classes_of values).
Local Notation k := (size (classes_of values)).
Local Notation mean := (class_mean coords values).
Local Notation class_scatter := (class_scatter coords values).
Local Notation class_covariance := (class_covariance coords values).
Local Notation class_prior := (class_prior F values).
Local Notation qda_class_ok := (qda_class_ok coords values).
Local Notation qda_record := (qda_record ln coords values).

Lemma sum_centered (c : L) :
  c \in classes ->
  \sum_(x <- selected coords values c) (x - mean c) = 0.
Proof.
move=> Hc; rewrite sumrB big_const_seq count_predT iter_addr_0 size_selected.
rewrite sum_selected /class_mean -scaler_nat scalerA divff ?scale1r ?subrr //.
by rewrite pnatr_eq0 -lt0n count_label_gt0.
Qed.

Lemma np_cov_centered (c : L) :
  c \in classes ->
  np_cov [seq x - mean c | x <- selected coords values c]
  = if (count_mem c values == 1)%N || (p == 1)%N then Array0d
    else Array2d (class_covariance c).
Proof.
move=> Hc; rewrite /np_cov size_map size_selected.
case: ifP => // _; congr Array2d.
have -> : \sum_(x <- [seq x - mean c | x <- selected coords values c]) x = 0.
  by rewrite big_map sum_centered.
rewrite scaler0 /class_covariance /class_scatter.
congr (_ *: _).
rewrite big_map -(sum_selected _ _ (fun x => (x - mean c)^T *m (x - mean c))).
by apply: eq_bigr => x _; rewrite subr0.
Qed.

Lemma qda_fit_class_eq (d : qda_dicts L F p) (c : L) :
  c \in classes ->
  qda_fit_class coords values (group_means coords values) (Returns d) c
  = if qda_class_ok c then
      Returns (set_item d.1.1 c (class_covariance c),
               set_item d.1.2 c (invmx (class_covariance c)),
               set_item d.2 c (\det (class_covariance c)))
    else Raises LinAlgError.
Proof.
move=> Hc; rewrite /qda_fit_class /= get_group_mean //= np_cov_centered //.
rewrite /qda_class_ok; case: (_ == 1)%N => //=; case: (p == 1)%N => //=.
by rewrite /np_linalg_inv; case: ifP.
Qed.

Local Arguments qda_fit_class : simpl never.

Lemma qda_loop (cs ks : seq L) (d : qda_dicts L F p) :
  {subset cs <= classes} -> uniq (ks ++ cs) ->
  [/\ unzip1 d.1.1 = ks, unzip1 d.1.2 = ks & unzip1 d.2 = ks] ->
  foldl (qda_fit_class coords values (group_means coords values))
        (Returns d) cs
  = if all qda_class_ok cs then
      Returns (d.1.1 ++ [seq (c, class_covariance c) | c <- cs],
               d.1.2 ++ [seq (c, invmx (class_covariance c)) | c <- cs],
               d.2 ++ [seq (c, \det (class_covariance c)) | c <- cs])
    else Raises LinAlgError.
Proof.
elim: cs ks d => [|c cs IH] ks [[dc di] dd] Hsub Hu [/= Hc Hi Hd].
  by rewrite !cats0.
have Hin : c \in classes by apply: Hsub; rewrite mem_head.
have Hfresh : c \notin ks.
  move: Hu; rewrite cat_uniq => /and3P[_ /hasPn Hh _].
  by apply/negP => Hk; move: (Hh c); rewrite mem_head Hk => /(_ isT).
rewrite /= qda_fit_class_eq //=.
case Hok: (qda_class_ok c) => /=; last first.
  by apply: foldl_raises.
rewrite !set_item_fresh ?Hc ?Hi ?Hd // (IH (rcons ks c)).
- by move=> x Hx; apply: Hsub; rewrite inE Hx orbT.
- by rewrite cat_rcons.
- by split; rewrite /= /unzip1 map_rcons -/(unzip1 _) ?Hc ?Hi ?Hd.
- by rewrite /= !cat_rcons.
Qed.

Lemma qda_init_eq :
  QuadraticDiscriminantClassifier_init ln coords values =
  if all qda_class_ok classes then Returns qda_record
  else Raises LinAlgError.
Proof.
rewrite /QuadraticDiscriminantClassifier_init.
rewrite (@qda_loop classes [::]) ?classes_of_uniq //.
case: ifP => //= _.
rewrite (@mapM_returns _ _ _
  (fun c => (c, ln (class_prior c) - 2%:R^-1 * ln (\det (class_covariance c)))))
  //= => c Hc.
by rewrite /class_probabilities !get_item_map.
Qed.

End QdaFacts.

(** ** classify as the row maxima of a score table *)

Section ClassifyFacts.
Variables (disp : Order.disp_t) (L : orderType disp).
Variable F : realFieldType.
Variable ln : F -> F.
Variable p : nat.

Implicit Types (clf : Classification L F p) (a : method).

Lemma classify_score_rows clf (m : nat) (samples : 'M[F]_(m, p)) :
  classify clf samples
  = (rows <- score_rows clf samples ;;
     Returns (predict_rows (classes clf) rows)).
Proof.
case: clf => c //=.
- by rewrite /lda_classify; case: (lda_scores c samples).
- by rewrite /qda_classify; case: (mapM _ _) => //= -[].
Qed.

Lemma mapM_size (A B : Type) (f : A -> pyresult B) (s : seq A) (ys : seq B) :
  mapM f s = Returns ys -> size ys = size s.
Proof.
elim: s ys => [|x s IH] ys /=; first by case=> <-.
case: (f x) => //= y; case E: (mapM f s) => [zs|] //= [<-] /=.
by rewrite (IH zs).
Qed.

Lemma score_rows_size clf (m : nat) (samples : 'M[F]_(m, p))
    (rows : 'I_m -> seq F) (i : 'I_m) :
  score_rows clf samples = Returns (Val rows) ->
  size (rows i) = size (classes clf).
Proof.
case: clf => c /=.
- by case=> <-; rewrite size_row_seq.
- by case: (lda_scores c samples) => //= S [<-]; rewrite size_row_seq.
- case E: (mapM _ _) => [cols|] //=; case: cols E => // c0 cols E [<-].
  by rewrite size_row_seq; exact: (mapM_size E).
Qed.

Lemma predict_rows_first_max (m : nat) (index : seq L)
    (rows : 'I_m -> seq F) (i : 'I_m) (c0 : L) :
  size (rows i) = size index -> (0 < size index)%N ->
  exists2 r, predict_rows index (Val rows) i = Val (nth c0 index r)
           & first_max (rows i) r.
Proof. by move=> Hsz Hk; apply: idxmax_first_max; rewrite Hsz. Qed.

Section Fitted.
Variables (n : nat) (coords : 'M[F]_(n, p)) (values : n.-tuple L).
Local Notation k := (size (classes_of values)).

Lemma fit_classes a clf :
  fit ln a coords values = Returns clf -> classes clf = classes_of values.
Proof.
case: a; rewrite /fit ?ls_init_eq ?lda_init_eq ?qda_init_eq.
- by case: ifP => //= _ [<-].
- case: ifP => [_ /= [<-] //|_].
  by case: ifP => //= _ [<-].
- by case: ifP => //= _ [<-].
Qed.

Lemma classes_gt0 : (0 < n)%N -> (0 < k)%N.
Proof.
move=> Hn; rewrite size_classes_of lt0n size_eq0.
apply/eqP => /undup_nil Hv.
by move: Hn; rewrite -(size_tuple values) Hv.
Qed.

End Fitted.
End ClassifyFacts.

(** ** Predictions, ties and the error rate *)

Section PredictionClaims.
Variables (disp : Order.disp_t) (L : orderType disp).
Variable F : realFieldType.
Variable ln : F -> F.
Variable p : nat.

Implicit Types (clf : Classification L F p) (a : method).

Lemma idxmax_mem (index : seq L) (s : seq F) (c : L) :
  idxmax index s = Val c -> c \in index.
Proof.
rewrite /idxmax; case: (np_argmax s) => // r.
case E: (drop r index) => [|c' t] // [<-].
by apply: (@mem_drop r); rewrite E mem_head.
Qed.

Lemma lda_scores_record (n m : nat) (coords : 'M[F]_(n, p))
    (values : n.-tuple L) (S Sinv : 'M[F]_p) (samples : 'M[F]_(m, p)) :
  exists T, lda_scores (lda_record ln coords values (Val S) (Val Sinv)) samples
            = Val T.
Proof. by rewrite /lda_scores /=; eexists. Qed.

Lemma fit_score_rows a (n m : nat) (coords : 'M[F]_(n, p))
    (values : n.-tuple L) clf (samples : 'M[F]_(m, p)) preds :
  fit ln a coords values = Returns clf ->
  classify clf samples = Returns preds ->
  (a = LDA -> (size (classes_of values) < n)%N) ->
  exists2 rows, score_rows clf samples = Returns (Val rows)
              & preds = predict_rows (classes clf) (Val rows).
Proof.
rewrite classify_score_rows; case: a => /=.
- rewrite ls_init_eq; case: ifP => //= _ [<-] /= [<-] _.
  by eexists.
- rewrite lda_init_eq => Hfit Hcl /(_ erefl); rewrite ltn_neqAle eq_sym.
  case/andP=> /negPf Hnk _; move: Hfit; rewrite Hnk /=.
  case: ifP => //= _ [Hclf]; move: Hcl; rewrite -Hclf /=.
  by case=> <-; eexists.
- rewrite qda_init_eq; case: ifP => //= _ [<-] /=.
  case: (mapM _ _) => //= -[|c cols] //= [<-] _.
  by eexists.
Qed.

(** C5: for a classifier fitted by any of the three methods and a row of
    finite scores, if the class at position j attains the maximum of the
    row, then the predicted label sits at a position r <= j, attains the
    same score, and is not above the j-th class in the label order: among
    tied maxima the lowest class is predicted. *)
Theorem C5_tie_break a (n m : nat) (coords : 'M[F]_(n, p))
    (values : n.-tuple L) clf (samples : 'M[F]_(m, p))
    (rows : 'I_m -> seq F) (i : 'I_m) (c0 : L) (j : nat) :
  fit ln a coords values = Returns clf ->
  score_rows clf samples = Returns (Val rows) ->
  (j < size (classes clf))%N ->
  (forall j', (j' < size (classes clf))%N ->
     nth 0 (rows i) j' <= nth 0 (rows i) j) ->
  exists preds r,
    [/\ classify clf samples = Returns preds,
        preds i = Val (nth c0 (classes clf) r),
        nth 0 (rows i) r = nth 0 (rows i) j,
        (r <= j)%N
      & (nth c0 (classes clf) r <= nth c0 (classes clf) j)%O].
Proof.
move=> Hfit Hrows Hj Hmax.
have Hsz := score_rows_size i Hrows.
have Hk : (0 < size (classes clf))%N by apply: leq_ltn_trans Hj.
have [r Hr [Hlt Hle Hfirst]] := predict_rows_first_max c0 Hsz Hk.
have Hrj : (r <= j)%N.
  rewrite leqNgt; apply/negP => /Hfirst.
  by rewrite ltNge Hmax // -Hsz.
exists (predict_rows (classes clf) (Val rows)), r; split=> //.
- by rewrite classify_score_rows Hrows.
- by apply/eqP; rewrite eq_le Hmax -?Hsz // Hle // Hsz.
- apply: sorted_nth_le; last by rewrite Hrj.
  by rewrite (fit_classes Hfit) classes_of_sorted.
Qed.


(** C9, as the code has it: on a non-empty evaluation table the error
    rate is the number of rows whose prediction differs from the true label
    divided by the number of rows, a value between 0 and 1; it is a function
    of its arguments only. *)
Theorem C9_error_rate clf (m : nat) (samples : 'M[F]_(m, p))
    (truth : m.-tuple L) (preds : 'I_m -> nanable L) :
  (0 < m)%N -> classify clf samples = Returns preds ->
  let wrong := count (fun i => preds i != Val (tnth truth i)) (enum 'I_m) in
  classification_error_rate clf samples truth
    = Returns (Val (wrong%:R / m%:R))
  /\ 0 <= (wrong%:R / m%:R : F) <= 1.
Proof.
move=> Hm Hcl /=; rewrite /classification_error_rate Hcl /= /mean_bool.
rewrite size_map size_enum_ord eqn0Ngt Hm /= count_map.
split; first by congr (Returns (Val (_ / _))); congr (_%:R); apply: eq_count.
rewrite divr_ge0 ?ler0n //= ler_pdivrMr ?ltr0n // mul1r ler_nat.
by rewrite -[X in (_ <= X)%N]size_enum_ord count_size.
Qed.

End PredictionClaims.

(** ** Priors and the least-squares coefficients *)

Section FitClaims.
Variables (disp : Order.disp_t) (L : orderType disp).
Variable F : realFieldType.
Variable ln : F -> F.
Variable p : nat.

Lemma sum_count_classes (values : seq L) :
  \sum_(c <- classes_of values) (count_mem c values)%:R = (size values)%:R :> F.
Proof.
have Hp : perm_eq (classes_of values) (undup values).
  by rewrite /classes_of perm_sort.
rewrite (perm_big _ Hp) /=.
have <- : \sum_(c <- values) 1 = (size values)%:R :> F.
  by rewrite big_const_seq count_predT iter_addr_0.
rewrite -[RHS](big_undup_iterop_count _ values xpredT (fun=> 1)).
by apply: eq_bigr => c _; rewrite Monoid.iteropE iter_addr_0.
Qed.

(** C10: on a non-empty training table the prior of each class of the
    Class set is its count divided by n, is strictly positive, the priors
    sum to 1, and these are the probabilities the LDA and QDA objects
    hold. *)
Theorem C10_priors (n : nat) (values : n.-tuple L) :
  (0 < n)%N ->
  let pr := class_probabilities F values in
  [/\ unzip1 pr = classes_of values,
      forall c, c \in classes_of values ->
        get_item pr c = Returns ((count_mem c values)%:R / n%:R)
        /\ 0 < (count_mem c values)%:R / n%:R :> F,
      all (fun x => 0 < x.2) pr,
      \sum_(x <- pr) x.2 = 1
    & forall (coords : 'M[F]_(n, p)),
        (forall clf, LinearDiscriminantClassifier_init ln coords values
                     = Returns clf -> lda_probabilities clf = pr)
        /\ (forall clf, QuadraticDiscriminantClassifier_init ln coords values
                        = Returns clf -> qda_probabilities clf = pr)].
Proof.
move=> Hn pr.
have Hpos c : c \in classes_of values ->
    0 < (count_mem c values)%:R / n%:R :> F.
  by move=> Hc; rewrite divr_gt0 ?ltr0n // count_label_gt0.
split.
- by rewrite /pr /class_probabilities /unzip1 -map_comp map_id_in.
- by move=> c Hc; rewrite /pr /class_probabilities get_item_map //; split=> //; exact: Hpos.
- by apply/allP => x /mapP[c Hc ->] /=; exact: Hpos.
- rewrite /pr /class_probabilities big_map /= -mulr_suml sum_count_classes.
  by rewrite size_tuple divff // pnatr_eq0 -lt0n.
- move=> coords; split=> clf.
  + rewrite lda_init_eq; case: ifP => [_ [<-] //|_].
    by case: ifP => // _ [<-].
  + by rewrite qda_init_eq; case: ifP => // _ [<-].
Qed.


End FitClaims.

(** ** Pooled and per-class covariance *)

Section CovarianceClaims.
Variables (disp : Order.disp_t) (L : orderType disp).
Variable F : realFieldType.
Variable ln : F -> F.
Variable p : nat.


(** A scatter matrix of N vectors that sum to zero has rank below N. *)
Lemma centered_scatter_unit (ds : seq 'rV[F]_p) :
  (0 < size ds)%N -> \sum_(x <- ds) x = 0 ->
  \sum_(x <- ds) x^T *m x \in unitmx -> (p < size ds)%N.
Proof.
move=> HN Hsum Hu.
pose D : 'M[F]_(size ds, p) := \matrix_(i < size ds) tnth (in_tuple ds) i.
have HD : \sum_(x <- ds) x^T *m x = D^T *m D.
  rewrite big_tnth; apply/matrixP => a b; rewrite summxE !mxE.
  by apply: eq_bigr => i _; rewrite !mxE big_ord1 !mxE.
have Hker : const_mx 1 *m D = (0 : 'rV_p).
  rewrite -Hsum big_tnth; apply/rowP => b; rewrite summxE !mxE.
  by apply: eq_bigr => i _; rewrite !mxE mul1r.
have Hrank : (\rank D < size ds)%N.
  rewrite ltn_neqAle rank_leq_row andbT -/(row_free D) -kermx_eq0.
  apply/negP => /eqP Hk0; move/sub_kermxP: Hker; rewrite Hk0 submx0.
  move/eqP/rowP/(_ (Ordinal HN)); rewrite !mxE => /eqP.
  by rewrite oner_eq0.
move: (mxrank_unit Hu); rewrite HD => Hp.
by rewrite -[X in (X < _)%N]Hp (leq_ltn_trans (mxrankM_maxr _ _)).
Qed.

Lemma class_covariance_unit (n : nat) (coords : 'M[F]_(n, p))
    (values : n.-tuple L) (c : L) :
  c \in classes_of values ->
  class_covariance coords values c \in unitmx ->
  (p < count_mem c values)%N.
Proof.
move=> Hc Hu.
pose ds := [seq x - class_mean coords values c | x <- selected coords values c].
have Hsz : size ds = count_mem c values by rewrite size_map size_selected.
rewrite -Hsz; apply: centered_scatter_unit.
- by rewrite Hsz count_label_gt0.
- by rewrite big_map sum_centered.
- have -> : \sum_(x <- ds) x^T *m x = class_scatter coords values c.
    by rewrite big_map (sum_selected _ _ (fun x => (x - _)^T *m (x - _))).
  move: Hu; rewrite /class_covariance -mul_scalar_mx unitmx_mul.
  by case/andP.
Qed.


End CovarianceClaims.

(** ** LDA and QDA on equal covariances *)

Section Forms.
Variable F : realFieldType.
Variable p : nat.
Implicit Types (A : 'M[F]_p) (u v w : 'rV[F]_p).

Lemma bil_entry (m1 m2 : nat) (X : 'M[F]_(m1, p)) A (Y : 'M[F]_(m2, p))
    (i : 'I_m1) (j : 'I_m2) :
  \sum_(a < p) X i a * (A *m Y^T) a j = bil A (row i X) (row j Y).
Proof.
rewrite /bil -mulmxA tr_row colE [A *m (_ *m _)]mulmxA -colE -row_mul !mxE.
by apply: eq_bigr => a _; rewrite !mxE.
Qed.

Lemma bil_sym A u v : A^T = A -> bil A u v = bil A v u.
Proof.
move=> HA; rewrite /bil.
have -> : (u *m A *m v^T) 0 0 = (u *m A *m v^T)^T 0 0 by rewrite [RHS]mxE.
by rewrite !trmx_mul trmxK HA mulmxA.
Qed.

Lemma bilBl A u v w : bil A (u - v) w = bil A u w - bil A v w.
Proof. by rewrite /bil !mulmxBl !mxE. Qed.

Lemma bilBr A u v w : bil A u (v - w) = bil A u v - bil A u w.
Proof. by rewrite /bil linearB /= mulmxBr !mxE. Qed.

Lemma bil_square A u v :
  A^T = A ->
  bil A (u - v) (u - v) = bil A u u - 2%:R * bil A u v + bil A v v.
Proof.
move=> HA; rewrite bilBl !bilBr (bil_sym v u HA).
by rewrite opprB addrA mulr2n mulrDl mul1r opprD addrA addrAC -!addrA addrC !addrA.
Qed.

End Forms.

Section Shift.
Variables (disp : Order.disp_t) (L : orderType disp).
Variable F : realFieldType.

(** Adding one number to every score of a row moves no maximum. *)
Lemma argmax_from_shift (g best : F) (ibest i : nat) (s : seq F) :
  argmax_from (best + g) ibest i [seq x + g | x <- s]
  = argmax_from best ibest i s.
Proof.
elim: s best ibest i => [|x s IH] best ibest i //=.
by rewrite ltrD2r; case: ifP => _; rewrite IH.
Qed.

Lemma idxmax_shift (g : F) (index : seq L) (s : seq F) :
  idxmax index [seq x + g | x <- s] = idxmax index s.
Proof. by case: s => [|x s] //; rewrite /idxmax /= argmax_from_shift. Qed.

End Shift.

Section Regroup.
Variables (disp : Order.disp_t) (L : orderType disp).
Variable F : realFieldType.
Variables (p n : nat).
Variables (coords : 'M[F]_(n, p)) (values : n.-tuple L).

Local Notation classes := (classes_of values).
Local Notation k := (size (classes_of values)).

Lemma sum_by_class (V : zmodType) (g : 'I_n -> V) :
  \sum_(c <- classes) \sum_(i < n | tnth values i == c) g i = \sum_(i < n) g i.
Proof.
under eq_bigr => c _ do rewrite big_mkcond /=.
rewrite exchange_big /=; apply: eq_bigr => i _.
rewrite -big_mkcond /=.
under eq_bigl => c do rewrite eq_sym.
rewrite big_const_seq iter_addr_0.
by rewrite count_uniq_mem ?classes_of_uniq // label_in_classes.
Qed.

Lemma within_scatter_by_class :
  within_scatter coords values
  = \sum_(c <- classes) class_scatter coords values c.
Proof.
rewrite /within_scatter -sum_by_class; apply: eq_bigr => c _.
by apply: eq_bigr => i /eqP Hi; rewrite /residual Hi.
Qed.

(** When every class has the covariance [C] and at least two observations,
    the pooled covariance is [C] too. *)
Lemma pooled_covariance_common (C : 'M[F]_p) :
  (0 < n)%N ->
  {in classes, forall c, (1 < count_mem c values)%N} ->
  {in classes, forall c, class_covariance coords values c = C} ->
  (k < n)%N /\ pooled_covariance coords values = C.
Proof.
move=> Hn Hcount Hcov.
have Hscat c : c \in classes ->
    class_scatter coords values c = (count_mem c values - 1)%:R *: C.
  move=> Hc; rewrite -(Hcov c Hc) /class_covariance scalerA divff ?scale1r //.
  by rewrite pnatr_eq0 subn_eq0 -ltnNge Hcount.
have Hsum : \sum_(c <- classes) (count_mem c values - 1)%:R = (n - k)%:R :> F.
  have Hs := sum_count_classes F values; rewrite size_tuple in Hs.
  rewrite natrB ?size_classes_leq // -Hs.
  have -> : k%:R = \sum_(c <- classes) 1 :> F.
    by rewrite big_const_seq count_predT iter_addr_0.
  rewrite -sumrB big_seq [RHS]big_seq; apply: eq_bigr => c Hc.
  by rewrite natrB // ltnW // Hcount.
have Hkn : (k < n)%N.
  have Hk : (0 < k)%N by apply: classes_gt0.
  suff : (k <= n - k)%N by rewrite -subn_gt0; apply: leq_trans.
  rewrite -(ler_nat F) -Hsum.
  have -> : k%:R = \sum_(c <- classes) 1 :> F.
    by rewrite big_const_seq count_predT iter_addr_0.
  rewrite big_seq [X in _ <= X]big_seq; apply: ler_sum => c Hc.
  by rewrite (ler_nat F 1) subn_gt0 Hcount.
split=> //; rewrite /pooled_covariance within_scatter_by_class.
rewrite (eq_big_seq (fun c => (count_mem c values - 1)%:R *: C)) //.
rewrite -scaler_suml Hsum scalerA mulVf ?scale1r //.
by rewrite pnatr_eq0 subn_eq0 -ltnNge.
Qed.

End Regroup.

Section Agreement.
Variables (disp : Order.disp_t) (L : orderType disp).
Variable F : realFieldType.
Variable ln : F -> F.
Variables (p n : nat).
Variables (coords : 'M[F]_(n, p)) (values : n.-tuple L).

Local Notation classes := (classes_of values).
Local Notation k := (size (classes_of values)).
Local Notation mean := (class_mean coords values).
Local Notation cov := (class_covariance coords values).
Local Notation prior := (class_prior F values).

Lemma class_covariance_sym (c : L) : (cov c)^T = cov c.
Proof.
rewrite /class_covariance /class_scatter linearZ /= raddf_sum /=.
by congr (_ *: _); apply: eq_bigr => i _; rewrite trmx_mul trmxK.
Qed.

Section Samples.
Variables (m : nat) (samples : 'M[F]_(m, p)).

Local Notation qda_score := (qda_score ln coords values samples).
Local Notation lda_score := (lda_score ln coords values samples).

Lemma qda_column_record (c : L) :
  c \in classes ->
  qda_column (qda_record ln coords values) samples c
  = Returns (\col_i qda_score c i).
Proof.
move=> Hc; rewrite /qda_column /= get_group_mean // !get_item_map //=.
congr Returns; apply/colP => i; rewrite !mxE.
rewrite /qda_score; congr (_ - _ * _).
set xs : 'M[F]_(m, p) := \matrix_(i0, a) (samples i0 a - mean c 0 a).
have -> : row i samples - mean c = row i xs.
  by apply/rowP => a; rewrite !mxE.
by rewrite -bil_entry.
Qed.

Lemma qda_classify_record :
  (0 < k)%N ->
  exists2 preds,
    qda_classify (qda_record ln coords values) samples = Returns preds
    & forall i, preds i = idxmax classes [seq qda_score c i | c <- classes].
Proof.
move=> Hk; rewrite /qda_classify /=.
have -> : mapM (qda_column (qda_record ln coords values) samples) classes
          = Returns [seq \col_i qda_score c i | c <- classes].
  by apply: mapM_returns => c Hc; apply: qda_column_record.
rewrite /=; case E: [seq _ | c <- classes] => [|c0 cs].
  by move: Hk; rewrite -(size_map (fun c => \col_i qda_score c i)) E.
eexists; first by [].
move=> i; rewrite /apply_idxmax -E; congr (idxmax _ _).
apply: (@eq_from_nth _ 0); first by rewrite size_row_seq !size_map.
move=> j; rewrite size_row_seq => Hj.
rewrite (nth_row_seq _ i (Ordinal Hj)) mxE /=.
have [c1 _] : exists c1 : L, c1 \in classes.
  by case: (classes) Hk => // c1 cs1 _; exists c1; rewrite mem_head.
move: Hj; rewrite size_map => Hj.
by rewrite (nth_map c1) // mxE (nth_map c1).
Qed.

Lemma lda_classify_record (S : 'M[F]_p) (i : 'I_m) :
  lda_classify (lda_record ln coords values (Val S) (Val (invmx S))) samples i
  = idxmax classes [seq lda_score (invmx S) c i | c <- classes].
Proof.
rewrite /lda_classify /lda_scores /= /apply_idxmax; congr (idxmax _ _).
apply: (@eq_from_nth _ 0); first by rewrite size_row_seq size_map.
move=> j; rewrite size_row_seq => Hj.
rewrite (nth_row_seq _ i (Ordinal Hj)) !mxE /=.
case E: (classes) Hj => [|c1 cs1] //; rewrite -E => Hj.
rewrite (nth_map c1) // /lda_score.
have Hmu : row (Ordinal Hj) (rows_values k (group_means coords values))
           = mean (nth c1 classes j).
  by rewrite rowK /= group_means_eq /unzip2 -map_comp (nth_map c1).
rewrite !bil_entry !Hmu; congr (_ + (ln _ - _)).
by rewrite /class_probabilities /unzip2 -map_comp (nth_map c1).
Qed.

End Samples.


End Agreement.

(** * Closed examples *)

Section Tables.
Variables (disp : Order.disp_t) (L : orderType disp).
Variable F : realFieldType.
Variable p : nat.

Variable data : seq (L * seq F).
Local Notation coords := (table_coords p data).
Local Notation values := (table_values data).
Local Notation row_of := (row_of p).

Lemma table_sum (V : zmodType) (P : pred L) (h : L -> 'rV[F]_p -> V) :
  \sum_(i < size data | P (tnth values i)) h (tnth values i) (row i coords)
  = \sum_(x <- data | P x.1) h x.1 (row_of x.2).
Proof.
rewrite [RHS]big_tnth; apply: eq_big => i; first by rewrite tnth_mktuple.
by rewrite tnth_mktuple rowK.
Qed.

Lemma table_labels : values = map fst data :> seq L.
Proof.
rewrite /= -[RHS](map_tnth_enum (map_tuple fst (in_tuple data))).
by apply: eq_map => i; rewrite tnth_map.
Qed.

Lemma table_count (c : L) :
  count_mem c values = count (fun x => x.1 == c) data.
Proof. by rewrite table_labels count_map. Qed.

Lemma table_class_mean (c : L) :
  class_mean coords values c
  = (count (fun x => x.1 == c) data)%:R^-1
    *: \sum_(x <- data | x.1 == c) row_of x.2.
Proof.
by rewrite /class_mean table_count (table_sum (pred1 c) (fun _ x => x)).
Qed.

Lemma table_class_scatter (c : L) :
  class_scatter coords values c
  = \sum_(x <- data | x.1 == c)
       (row_of x.2 - class_mean coords values c)^T
       *m (row_of x.2 - class_mean coords values c).
Proof.
by rewrite /class_scatter
  (table_sum (pred1 c) (fun _ x => (x - class_mean coords values c)^T
                                   *m (x - class_mean coords values c))).
Qed.

End Tables.

Lemma cross_classes : classes_of cross_values = [:: 0%N; 1%N].
Proof. by rewrite /cross_values table_labels. Qed.

Lemma cross_mean0 : class_mean cross_coords cross_values 0%N = 0.
Proof.
rewrite /cross_coords /cross_values table_class_mean.
rewrite /cross_data !big_cons big_nil /=.
apply/rowP => j; rewrite !mxE /=.
by case: j => [[|[|j]] Hj] //=; ring.
Qed.

Lemma cross_mean1 :
  class_mean cross_coords cross_values 1%N = row_of 2 [:: 10%:R; 10%:R].
Proof.
rewrite /cross_coords /cross_values table_class_mean.
rewrite /cross_data !big_cons big_nil /=.
apply/rowP => j; rewrite !mxE /=.
by case: j => [[|[|j]] Hj] //=; field.
Qed.

Lemma cross_scatter0 : class_scatter cross_coords cross_values 0%N = 2%:R%:M.
Proof.
rewrite /cross_coords /cross_values table_class_scatter.
rewrite -/cross_coords -/cross_values cross_mean0.
rewrite /cross_data !big_cons big_nil /=.
apply/matrixP => a b; rewrite !mxE !big_ord1 !mxE /=.
by case: a => [[|[|a]] Ha] //=; case: b => [[|[|b]] Hb] //=; ring.
Qed.

Lemma cross_scatter1 : class_scatter cross_coords cross_values 1%N = 2%:R%:M.
Proof.
rewrite /cross_coords /cross_values table_class_scatter.
rewrite -/cross_coords -/cross_values cross_mean1.
rewrite /cross_data !big_cons big_nil /=.
apply/matrixP => a b; rewrite !mxE !big_ord1 !mxE /=.
by case: a => [[|[|a]] Ha] //=; case: b => [[|[|b]] Hb] //=; ring.
Qed.

Lemma cross_count (c : nat) :
  c \in [:: 0%N; 1%N] -> count_mem c cross_values = 4%N.
Proof.
by rewrite /cross_values table_count !inE => /orP[] /eqP ->.
Qed.

Lemma cross_covariance (c : nat) :
  c \in [:: 0%N; 1%N] ->
  class_covariance cross_coords cross_values c = (3%:R^-1 * 2%:R)%:M.
Proof.
move=> Hc; rewrite /class_covariance cross_count //.
have -> : class_scatter cross_coords cross_values c = 2%:R%:M.
  by move: Hc; rewrite !inE => /orP[] /eqP ->;
     [exact: cross_scatter0 | exact: cross_scatter1].
by rewrite -scalemx1 scalerA scalemx1.
Qed.

Lemma cross_covariance_unit (c : nat) :
  c \in [:: 0%N; 1%N] ->
  class_covariance cross_coords cross_values c \in unitmx.
Proof.
move=> Hc; rewrite cross_covariance // unitmxE det_scalar unitfE.
by rewrite expf_neq0 // mulf_neq0 ?invr_eq0 ?pnatr_eq0.
Qed.

Lemma cross_qda_init :
  QuadraticDiscriminantClassifier_init example_log cross_coords cross_values
  = Returns cross_qda.
Proof.
rewrite qda_init_eq.
have -> // : all (qda_class_ok cross_coords cross_values)
                 (classes_of cross_values).
rewrite cross_classes; apply/allP => c Hc.
by rewrite /qda_class_ok cross_count //= cross_covariance_unit.
Qed.

Lemma cross_lda_init :
  LinearDiscriminantClassifier_init example_log cross_coords cross_values
  = Returns cross_lda.
Proof.
have [Hkn HS] :
    (size (classes_of cross_values) < size cross_data)%N
    /\ pooled_covariance cross_coords cross_values = (3%:R^-1 * 2%:R)%:M.
  apply: pooled_covariance_common => // c; rewrite cross_classes => Hc.
  - by rewrite cross_count.
  - exact: cross_covariance.
rewrite lda_init_eq (gtn_eqF Hkn) /=.
have -> // : pooled_covariance cross_coords cross_values \in unitmx.
rewrite HS unitmxE det_scalar unitfE.
by rewrite expf_neq0 // mulf_neq0 ?invr_eq0 ?pnatr_eq0.
Qed.


Lemma unit_ls_init :
  LeastSquaresClassifier_init unit_coords unit_values = Returns unit_ls.
Proof.
have Hu : unit_coords^T *m unit_coords \in unitmx.
  by rewrite /unit_coords trmx1 mulmx1 unitmx1.
by rewrite ls_init_eq Hu.
Qed.

Lemma unit_ls_fit :
  fit example_log LS unit_coords unit_values = Returns (LeastSquares unit_ls).
Proof. by rewrite /fit unit_ls_init. Qed.

Lemma zero_scores (k : nat) (i : 'I_1) (j : nat) :
  nth 0 (row_seq (0 : 'M[rat]_(1, k)) i) j = 0.
Proof.
case: (ltnP j k) => Hj; last by rewrite nth_default ?size_row_seq.
by rewrite (nth_row_seq _ i (Ordinal Hj)) mxE.
Qed.

Lemma C5_witness :
  exists preds r,
    [/\ classify (LeastSquares unit_ls) zero_sample = Returns preds,
        preds ord0 = Val (nth 0%N (classes (LeastSquares unit_ls)) r),
        nth 0 (row_seq (ls_scores unit_ls zero_sample) ord0) r
        = nth 0 (row_seq (ls_scores unit_ls zero_sample) ord0) 1,
        (r <= 1)%N
      & (nth 0%N (classes (LeastSquares unit_ls)) r
         <= nth 0%N (classes (LeastSquares unit_ls)) 1)%O].
Proof.
apply: (@C5_tie_break _ _ _ example_log _ LS _ _ unit_coords unit_values).
- exact: unit_ls_fit.
- by [].
- by [].
- by move=> j' _; rewrite /ls_scores /zero_sample mul0mx !zero_scores.
Defined.

Lemma cross_lda_fit :
  fit example_log LDA cross_coords cross_values
  = Returns (LinearDiscriminant cross_lda).
Proof. by rewrite /fit cross_lda_init. Qed.

Lemma zero_in_cross : 0%N \in cross_values.
Proof. by rewrite memtE /cross_values table_labels. Qed.



Lemma C9_witness :
  let wrong :=
    count (fun i => ls_classify unit_ls zero_sample i != Val (tnth [tuple 1%N] i))
          (enum 'I_1) in
  classification_error_rate (LeastSquares unit_ls) zero_sample [tuple 1%N]
    = Returns (Val (wrong%:R / 1%:R))
  /\ 0 <= (wrong%:R / 1%:R : rat) <= 1.
Proof.
by apply: (@C9_error_rate _ _ _ _ (LeastSquares unit_ls) 1 zero_sample).
Defined.

Lemma C10_witness :
  let pr := class_probabilities rat cross_values in
  [/\ unzip1 pr = classes_of cross_values,
      forall c, c \in classes_of cross_values ->
        get_item pr c
        = Returns ((count_mem c cross_values)%:R / (size cross_data)%:R)
        /\ 0 < (count_mem c cross_values)%:R / (size cross_data)%:R :> rat,
      all (fun x => 0 < x.2) pr,
      \sum_(x <- pr) x.2 = 1
    & forall (coords : 'M[rat]_(size cross_data, 2)),
        (forall clf, LinearDiscriminantClassifier_init example_log coords
                       cross_values = Returns clf ->
                     lda_probabilities clf = pr)
        /\ (forall clf, QuadraticDiscriminantClassifier_init example_log coords
                          cross_values = Returns clf ->
                        qda_probabilities clf = pr)].
Proof.
by apply: (@C10_priors _ _ rat example_log 2 _ cross_values).
Defined.


(** The fitted classifiers of the examples, run on samples. *)
Lemma bil_scalar (F : realFieldType) (p : nat) (a : F) (u v : 'rV[F]_p) :
  bil a%:M u v = a * \sum_(j < p) u 0 j * v 0 j.
Proof.
rewrite /bil mul_mx_scalar -scalemxAl mxE; congr (_ * _).
by rewrite mxE; apply: eq_bigr => j _; rewrite mxE.
Qed.

Lemma cross_pooled :
  pooled_covariance cross_coords cross_values = (3%:R^-1 * 2%:R)%:M.
Proof.
have [] // : (size (classes_of cross_values) < size cross_data)%N
    /\ pooled_covariance cross_coords cross_values = (3%:R^-1 * 2%:R)%:M.
apply: pooled_covariance_common => // c; rewrite cross_classes => Hc.
- by rewrite cross_count.
- exact: cross_covariance.
Qed.

Lemma cross_prior (c : nat) :
  c \in [:: 0%N; 1%N] -> class_prior rat cross_values c = 2%:R^-1.
Proof.
by move=> Hc; rewrite /class_prior cross_count.
Qed.

Example cross_lda_near_origin :
  lda_classify cross_lda near_origin ord0 = Val 0%N.
Proof.
rewrite /cross_lda lda_classify_record cross_classes /=.
rewrite /lda_score cross_pooled invmx_scalar !bil_scalar !cross_prior //.
rewrite cross_mean0 cross_mean1 !big_ord_recl !big_ord0 !mxE /=.
rewrite /idxmax /np_argmax /argmax_from /example_log.
set x := (X in X < _); set y := (X in _ < X).
have -> : x < y = false.
  by apply/negbTE; rewrite -leNgt /x /y; lra.
by [].
Qed.

Example cross_lda_near_ten :
  lda_classify cross_lda near_ten ord0 = Val 1%N.
Proof.
rewrite /cross_lda lda_classify_record cross_classes /=.
rewrite /lda_score cross_pooled invmx_scalar !bil_scalar !cross_prior //.
rewrite cross_mean0 cross_mean1 !big_ord_recl !big_ord0 !mxE /=.
rewrite /idxmax /np_argmax /argmax_from /example_log.
set x := (X in X < _); set y := (X in _ < X).
have -> : x < y by rewrite /x /y; lra.
by [].
Qed.

Example cross_qda_near_origin :
  exists2 preds, qda_classify cross_qda near_origin = Returns preds
               & preds ord0 = Val 0%N.
Proof.
have [preds Hq Hp] :=
  qda_classify_record example_log cross_coords near_origin
    (classes_gt0 cross_values isT).
exists preds => //; rewrite Hp cross_classes /=.
rewrite /qda_score !cross_covariance // invmx_scalar !bil_scalar !cross_prior //.
rewrite cross_mean0 cross_mean1 !big_ord_recl !big_ord0 !mxE /=.
rewrite /idxmax /np_argmax /argmax_from /example_log.
set x := (X in X < _); set y := (X in _ < X).
have -> : x < y = false.
  by apply/negbTE; rewrite -leNgt /x /y; lra.
by [].
Qed.

Example cross_qda_near_ten :
  exists2 preds, qda_classify cross_qda near_ten = Returns preds
               & preds ord0 = Val 1%N.
Proof.
have [preds Hq Hp] :=
  qda_classify_record example_log cross_coords near_ten
    (classes_gt0 cross_values isT).
exists preds => //; rewrite Hp cross_classes /=.
rewrite /qda_score !cross_covariance // invmx_scalar !bil_scalar !cross_prior //.
rewrite cross_mean0 cross_mean1 !big_ord_recl !big_ord0 !mxE /=.
rewrite /idxmax /np_argmax /argmax_from /example_log.
set x := (X in X < _); set y := (X in _ < X).
have -> : x < y by rewrite /x /y; lra.
by [].
Qed.

Example unit_ls_second : ls_classify unit_ls second_unit ord0 = Val 1%N.
Proof.
rewrite /ls_classify /ls_scores /unit_ls /= /unit_coords.
rewrite !trmx1 !mulmx1 invmx1 !mul1mx /apply_idxmax.
have -> : row_seq (second_unit *m indicator_mx rat unit_values) ord0
          = [:: 0; 1].
  apply: (@eq_from_nth _ 0); first by rewrite size_row_seq.
  move=> j; rewrite size_row_seq => Hj.
  rewrite (nth_row_seq _ ord0 (Ordinal Hj)) !mxE !big_ord_recl big_ord0 !mxE /=.
  rewrite !(tnth_nth 0%N) /=.
  by case: j Hj => [|[|j]] //= _; rewrite ?mul0r ?mul1r ?addr0 ?add0r.
by [].
Qed.

(** The list functions run on small inputs. *)
Example indicator_matrix_example :
  indicator_matrix [:: 2%N; 0%N; 2%N]
  = Returns [:: (0%N, [:: 0; 1; 0]); (2%N, [:: 1; 0; 1])].
Proof. by []. Qed.

Example np_argmax_example : np_argmax [:: 1; 3%:R; 3%:R; 2%:R : rat] = Some 1%N.
Proof. by []. Qed.


Lemma single_lda_init :
  LinearDiscriminantClassifier_init example_log single_coords single_values
  = Returns (lda_record example_log single_coords single_values NaN NaN).
Proof. by rewrite lda_init_eq. Qed.



(** On an evaluation table without rows the error rate is NaN. *)
Lemma C9_counterexample :
  classification_error_rate (LeastSquares unit_ls)
    (0 : 'M[rat]_(0, 2)) [tuple]
  = Returns NaN
  /\ ~ (exists x : rat,
          classification_error_rate (LeastSquares unit_ls)
            (0 : 'M[rat]_(0, 2)) [tuple] = Returns (Val x)
          /\ 0 <= x <= 1).
Proof.
have H : classification_error_rate (LeastSquares unit_ls)
           (0 : 'M[rat]_(0, 2)) [tuple] = Returns NaN.
  by rewrite /classification_error_rate /= /mean_bool size_map size_enum_ord.
by split=> //; rewrite H => -[x []].
Qed.

(** * Further properties of the fitted classifiers *)

(** ** Exceptions of the constructors and of classify *)

Section ErrorBehaviour.
Variables (disp : Order.disp_t) (L : orderType disp).
Variable F : realFieldType.
Variable ln : F -> F.
Variable p : nat.




End ErrorBehaviour.

Section MoreBehaviour.
Variables (disp : Order.disp_t) (L : orderType disp).
Variable F : realFieldType.
Variable ln : F -> F.


Variable p : nat.

(** X10: on a non-empty evaluation table the error rate is 0 exactly when
    every prediction equals the true label, and 1 exactly when every
    prediction differs from it. *)
Theorem error_rate_extremes (clf : Classification L F p) (m : nat)
    (samples : 'M[F]_(m, p)) (truth : m.-tuple L)
    (preds : 'I_m -> nanable L) :
  (0 < m)%N -> classify clf samples = Returns preds ->
  (classification_error_rate clf samples truth = Returns (Val 0)
   <-> forall i, preds i = Val (tnth truth i))
  /\ (classification_error_rate clf samples truth = Returns (Val 1)
      <-> forall i, preds i != Val (tnth truth i)).
Proof.
move=> Hm Hcl; rewrite /classification_error_rate Hcl /= /mean_bool.
rewrite size_map size_enum_ord eqn0Ngt Hm /= count_map.
set wrong := count _ _.
have Hm0 : m%:R != 0 :> F by rewrite pnatr_eq0 -lt0n.
have Hsz : size (enum 'I_m) = m by rewrite size_enum_ord.
split; split.
- case=> /eqP; rewrite mulf_eq0 invr_eq0 (negPf Hm0) orbF pnatr_eq0 => H0 i.
  have : ~~ has (preim (fun i => preds i != Val (tnth truth i)) id) (enum 'I_m).
    by rewrite has_count -leqNgt leqn0.
  by move/hasPn/(_ i); rewrite mem_enum => /(_ isT) /negPn /eqP.
- move=> H; congr (Returns (Val _)); apply/eqP.
  rewrite mulf_eq0 pnatr_eq0; apply/orP; left.
  rewrite -leqn0 leqNgt -has_count; apply/hasPn => i _ /=.
  by rewrite H eqxx.
- case=> /eqP; rewrite -[X in _ == X](divff Hm0) => /eqP/(mulIf _)/eqP.
  rewrite invr_eq0 Hm0 => /(_ isT); rewrite eqr_nat -[X in _ == X]Hsz => Hc i.
  move: Hc; rewrite -all_count => /allP/(_ i).
  by rewrite mem_enum; apply.
- move=> H; congr (Returns (Val _)).
  have -> : wrong = m.
    rewrite -[RHS]Hsz; apply/eqP; rewrite -all_count; apply/allP => i _ /=.
    exact: H.
  by rewrite divff.
Qed.

(** X11: an LDA object fitted on a table in which every class has one
    observation (n = k, p > 0) has error rate 1 on every non-empty
    evaluation table, the training table included: all its predictions are
    NaN. *)
Theorem lda_singleton_error_rate (n m : nat) (coords : 'M[F]_(n, p))
    (values : n.-tuple L) (clf : Classification L F p)
    (samples : 'M[F]_(m, p)) (truth : m.-tuple L) :
  n = size (classes_of values) -> (0 < p)%N -> (0 < m)%N ->
  fit ln LDA coords values = Returns clf ->
  classification_error_rate clf samples truth = Returns (Val 1).
Proof.
move=> Hnk Hp Hm; rewrite /fit lda_init_eq -Hnk eqxx Hp /= => -[<-].
rewrite /classification_error_rate /= /mean_bool size_map size_enum_ord.
rewrite eqn0Ngt Hm /= count_map; congr (Returns (Val _)).
have -> : count (preim (fun i : 'I_m => NaN != Val (tnth truth i)) id)
                (enum 'I_m) = m.
  rewrite -[RHS]size_enum_ord; apply/eqP; rewrite -all_count.
  by apply/allP.
by rewrite divff // pnatr_eq0 -lt0n.
Qed.

(** X12: when every class has one observation the loop over the rows
    leaves sigma at the zero matrix, so that [self.sigma /= (n - k)] is
    0 / 0. *)
Theorem lda_sigma_zero_on_singletons (n : nat) (coords : 'M[F]_(n, p))
    (values : n.-tuple L) :
  n = size (classes_of values) ->
  foldl (lda_sigma_step (group_means coords values)) (Returns 0)
        [seq (row i coords, tnth values i) | i <- enum 'I_n]
  = Returns 0.
Proof.
move=> Hnk; rewrite lda_sigma_loop add0r big_enum /=.
by rewrite -/(within_scatter coords values) within_scatter_eq0.
Qed.

End MoreBehaviour.

(** ** Rank of a Gram matrix; the least-squares scores *)

Section Gram.
Variable F : realFieldType.

Lemma row_sq_eq0 (q : nat) (w : 'rV[F]_q) : w *m w^T = 0 -> w = 0.
Proof.
move/matrixP/(_ 0 0); rewrite !mxE => /eqP.
rewrite psumr_eq0; first by move=> j _; rewrite mxE -expr2 sqr_ge0.
move/allP => H; apply/rowP => j; rewrite mxE.
by have := H j (mem_index_enum _); rewrite mxE /= mulf_eq0 orbb => /eqP.
Qed.

Lemma gram_ker (N q r : nat) (D : 'M[F]_(N, q)) (K : 'M[F]_(r, q)) :
  K *m (D^T *m D) = 0 -> K *m D^T = 0.
Proof.
move=> H; apply/row_matrixP => i; rewrite row_mul row0.
apply: row_sq_eq0; rewrite trmx_mul trmxK -mulmxA [D^T *m _]mulmxA.
by rewrite mulmxA -row_mul H row0 mul0mx.
Qed.

Lemma mxrank_gram (N q : nat) (D : 'M[F]_(N, q)) :
  \rank (D^T *m D) = \rank D.
Proof.
have Hle1 : (\rank (D^T *m D) <= q)%N by apply: rank_leq_row.
have Hle2 : (\rank D^T <= q)%N by apply: rank_leq_row.
have Hk : (kermx (D^T *m D) == kermx D^T)%MS.
  apply/andP; split; apply/sub_kermxP.
  - by apply: gram_ker; rewrite mulmx_ker.
  - by rewrite mulmxA mulmx_ker mul0mx.
have := eqmx_rank Hk.
rewrite !mxrank_ker => Heq.
by rewrite -(subKn Hle1) Heq subKn // mxrank_tr.
Qed.

Lemma gram_unit (N q : nat) (D : 'M[F]_(N, q)) :
  (D^T *m D \in unitmx) = (\rank D == q).
Proof. by rewrite -row_free_unit /row_free mxrank_gram. Qed.

End Gram.

Section LeastSquaresFacts.
Variables (disp : Order.disp_t) (L : orderType disp).
Variable F : realFieldType.
Variable p : nat.



Lemma argmax_from_scale (a best : F) (ibest i : nat) (s : seq F) :
  0 < a ->
  argmax_from (a * best) ibest i [seq a * x | x <- s]
  = argmax_from best ibest i s.
Proof.
move=> Ha; elim: s best ibest i => [|x s IH] best ibest i //=.
by rewrite ltr_pM2l //; case: ifP => _; rewrite IH.
Qed.

Lemma idxmax_scale (a : F) (index : seq L) (s : seq F) :
  0 < a -> idxmax index [seq a * x | x <- s] = idxmax index s.
Proof. by move=> Ha; case: s => [|x s] //; rewrite /idxmax /= argmax_from_scale. Qed.

Lemma idxmax_indicator (values : seq L) (v : L) :
  v \in values ->
  idxmax (classes_of values)
         ([seq (v == c)%:R | c <- classes_of values] : seq F)
  = Val v.
Proof.
move=> Hv; have Hc : v \in classes_of values by rewrite mem_classes_of.
set s : seq F := [seq _ | c <- _].
have Hsz : size (classes_of values) = size s by rewrite size_map.
have Hk : (0 < size s)%N by rewrite -Hsz; case: (classes_of values) Hc.
have [r -> [Hlt Hmax _]] := idxmax_first_max v Hsz Hk.
congr Val; move: Hlt; rewrite -Hsz => Hlt.
have := Hmax (index v (classes_of values)).
rewrite -Hsz index_mem => /(_ Hc).
rewrite /s !(nth_map v) ?index_mem // nth_index // eqxx.
by case: eqP => // _; rewrite ler10.
Qed.

(** X18: multiplying a sample table by a positive number changes no
    least-squares prediction. *)
Theorem ls_classify_scale (clf : LeastSquaresClassifier L F p) (m : nat)
    (samples : 'M[F]_(m, p)) (a : F) :
  0 < a -> ls_classify clf (a *: samples) =1 ls_classify clf samples.
Proof.
move=> Ha i; rewrite /ls_classify /apply_idxmax /ls_scores -scalemxAl.
rewrite -[RHS](idxmax_scale _ _ Ha); congr (idxmax _ _).
by rewrite /row_seq -map_comp; apply: eq_map => j /=; rewrite mxE.
Qed.



End LeastSquaresFacts.

Section SquareDesign.
Variables (disp : Order.disp_t) (L : orderType disp).
Variable F : realFieldType.


End SquareDesign.

(** ** Rank of the LDA scatter; features without variance *)

Section ScatterRank.
Variables (disp : Order.disp_t) (L : orderType disp).
Variable F : realFieldType.
Variable ln : F -> F.
Variables (p n : nat).
Variables (coords : 'M[F]_(n, p)) (values : n.-tuple L).

Local Notation classes := (classes_of values).
Local Notation k := (size (classes_of values)).

Lemma class_residuals_sum (c : L) :
  c \in classes ->
  \sum_(i < n | tnth values i == c) residual coords values i = 0.
Proof.
move=> Hc; rewrite -[RHS](sum_centered coords Hc) sum_selected.
by apply: eq_bigr => i /eqP Hi; rewrite /residual Hi.
Qed.

Lemma indicator_mx_row_free : row_free (indicator_mx F values)^T.
Proof.
apply/row_freeP.
exists (\matrix_(i < n, j < k)
          (nat_of_ord i
           == index (tnth (in_tuple classes) j) values :> nat)%:R).
apply/matrixP => j j'; rewrite !mxE.
have Hin : tnth (in_tuple classes) j' \in values.
  by rewrite -mem_classes_of mem_tnth.
have Hlt : (index (tnth (in_tuple classes) j') values < n)%N.
  by rewrite -[X in (_ < X)%N](size_tuple values) index_mem.
rewrite (bigD1 (Ordinal Hlt)) //= big1 ?addr0 => [i Hne|].
  rewrite !mxE; have /negPf-> : nat_of_ord i != index (tnth (in_tuple classes) j') values.
    by apply: contra Hne => /eqP Hi; apply/eqP/val_inj.
  by rewrite mulr0.
rewrite !mxE eqxx mulr1.
have -> : tnth values (Ordinal Hlt) = tnth (in_tuple classes) j'.
  by rewrite (tnth_nth (tnth (in_tuple classes) j')) /= nth_index.
have [c0 Hc0] : exists c0, forall j0, tnth (in_tuple classes) j0 = nth c0 classes j0.
  by exists (tnth (in_tuple classes) j) => j0; apply: tnth_nth.
by rewrite !Hc0 nth_uniq ?classes_of_uniq // eq_sym.
Qed.

Lemma within_scatter_rank : (\rank (within_scatter coords values) <= n - k)%N.
Proof.
pose R : 'M[F]_(n, p) := \matrix_i residual coords values i.
have HW : within_scatter coords values = R^T *m R.
  apply/matrixP => a b; rewrite /within_scatter summxE !mxE.
  by apply: eq_bigr => i _; rewrite !mxE big_ord1 !mxE.
have Hker : (indicator_mx F values)^T *m R = 0.
  apply/row_matrixP => j; rewrite row_mul row0 mulmx_sum_row.
  rewrite -[RHS](class_residuals_sum (mem_tnth j (in_tuple classes))).
  rewrite [RHS]big_mkcond /=; apply: eq_bigr => i _.
  by rewrite !mxE rowK; case: eqP => _; rewrite ?scale1r ?scale0r.
rewrite HW mxrank_gram.
have Hk : (k <= n - \rank R)%N.
  rewrite -mxrank_ker -(eqP indicator_mx_row_free).
  by apply: mxrankS; apply/sub_kermxP.
by rewrite leq_subCr ?rank_leq_row // size_classes_leq.
Qed.


End ScatterRank.

Section ConstantFeature.
Variables (disp : Order.disp_t) (L : orderType disp).
Variable F : realFieldType.
Variable ln : F -> F.
Variables (p n : nat).
Variables (coords : 'M[F]_(n, p)) (values : n.-tuple L).

Local Notation classes := (classes_of values).
Local Notation k := (size (classes_of values)).

Lemma unit_row_neq0 (A : 'M[F]_p) (a : 'I_p) : A \in unitmx -> row a A != 0.
Proof.
move=> Hu; apply/eqP => H0.
have : delta_mx 0 a *m A *m invmx A = (0 : 'rV[F]_p) by rewrite -rowE H0 mul0mx.
rewrite mulmxK // => /rowP/(_ a); rewrite !mxE !eqxx /= => /eqP.
by rewrite oner_eq0.
Qed.

Lemma class_mean_constant (c : L) (a : 'I_p) (x : F) :
  c \in classes -> (forall i, tnth values i = c -> coords i a = x) ->
  class_mean coords values c 0 a = x.
Proof.
move=> Hc Hx; rewrite /class_mean mxE summxE.
rewrite -(sum_selected coords values (fun r : 'rV[F]_p => r 0 a)).
rewrite big_seq (eq_bigr (fun=> x)).
  move=> r /mapP[i]; rewrite mem_filter => /andP[/eqP Hi _] ->.
  by rewrite mxE; apply: Hx.
rewrite -big_seq big_const_seq count_predT iter_addr_0 size_selected.
rewrite -[x *+ _]mulr_natl mulrA mulVf ?mul1r // pnatr_eq0 -lt0n.
exact: count_label_gt0.
Qed.



End ConstantFeature.

(** ** Positive definite covariances *)

Section PositiveDefinite.
Variable F : realFieldType.
Variable p : nat.
Implicit Types (A : 'M[F]_p) (u v d : 'rV[F]_p).

Lemma bil_sum (I : Type) (r : seq I) (P : pred I) (B : I -> 'M[F]_p) u v :
  bil (\sum_(i <- r | P i) B i) u v = \sum_(i <- r | P i) bil (B i) u v.
Proof. by rewrite /bil mulmx_sumr mulmx_suml summxE. Qed.

Lemma bil_scale (a : F) A u v : bil (a *: A) u v = a * bil A u v.
Proof. by rewrite /bil -scalemxAr -scalemxAl mxE. Qed.

Lemma bil0l A v : bil A 0 v = 0.
Proof. by rewrite /bil !mul0mx mxE. Qed.

Lemma mul_row_outer d u : u *m (d^T *m d) = (u *m d^T) 0 0 *: d.
Proof. by rewrite mulmxA {1}[u *m d^T]mx11_scalar mul_scalar_mx. Qed.

Lemma bil_outer d u : bil (d^T *m d) u u = ((u *m d^T) 0 0) ^+ 2.
Proof.
rewrite /bil mul_row_outer -scalemxAl mxE expr2; congr (_ * _).
by rewrite -[d *m u^T]trmxK trmx_mul trmxK mxE.
Qed.

Lemma scatter_psd (I : eqType) (r : seq I) (P : pred I) (d : I -> 'rV[F]_p) u :
  0 <= bil (\sum_(i <- r | P i) (d i)^T *m d i) u u.
Proof. by rewrite bil_sum sumr_ge0 // => i _; rewrite bil_outer sqr_ge0. Qed.

Lemma scatter_pd (I : eqType) (r : seq I) (P : pred I) (d : I -> 'rV[F]_p) u :
  \sum_(i <- r | P i) (d i)^T *m d i \in unitmx -> u != 0 ->
  0 < bil (\sum_(i <- r | P i) (d i)^T *m d i) u u.
Proof.
move=> Hu Hne; rewrite lt0r scatter_psd andbT.
apply: contra Hne; rewrite bil_sum psumr_eq0.
  by move=> i _; rewrite bil_outer sqr_ge0.
move/allP => H0.
have Hz : u *m (\sum_(i <- r | P i) (d i)^T *m d i) = 0.
  rewrite mulmx_sumr big_seq_cond big1 // => i /andP[Hi HP].
  have := H0 i Hi; rewrite HP /= bil_outer sqrf_eq0 => /eqP Hd.
  by rewrite mul_row_outer Hd scale0r.
by rewrite -(mulmxK Hu u) Hz mul0mx.
Qed.

Lemma bil_inv_pd A :
  A^T = A -> A \in unitmx -> (forall u, u != 0 -> 0 < bil A u u) ->
  forall v, v != 0 -> 0 < bil (invmx A) v v.
Proof.
move=> Hs Hu Hpd v Hv.
have -> : bil (invmx A) v v = bil A (v *m invmx A) (v *m invmx A).
  by rewrite /bil mulmxKV // trmx_mul trmx_inv Hs mulmxA.
apply: Hpd; apply: contra Hv => /eqP H0.
by rewrite -(mulmxKV Hu v) H0 mul0mx.
Qed.

End PositiveDefinite.

Section FittedCovariances.
Variables (disp : Order.disp_t) (L : orderType disp).
Variable F : realFieldType.
Variable ln : F -> F.
Variables (p n : nat).
Variables (coords : 'M[F]_(n, p)) (values : n.-tuple L).

Local Notation classes := (classes_of values).
Local Notation k := (size (classes_of values)).

Lemma class_covariance_pd (c : L) (u : 'rV[F]_p) :
  c \in classes -> qda_class_ok coords values c -> u != 0 ->
  0 < bil (class_covariance coords values c) u u.
Proof.
move=> Hc /and3P[H1 _ Hu] Hne; rewrite /class_covariance bil_scale.
move: Hu; rewrite /class_covariance -mul_scalar_mx unitmx_mul => /andP[_ Hu].
apply: mulr_gt0.
  by rewrite invr_gt0 ltr0n subn_gt0 ltn_neqAle eq_sym H1 count_label_gt0.
by rewrite /class_scatter in Hu *; apply: scatter_pd.
Qed.

Lemma pooled_covariance_sym :
  (pooled_covariance coords values)^T = pooled_covariance coords values.
Proof.
rewrite /pooled_covariance /within_scatter linearZ /= raddf_sum /=.
by congr (_ *: _); apply: eq_bigr => i _; rewrite trmx_mul trmxK.
Qed.



End FittedCovariances.

(** ** Moving the origin *)

Section Translation.
Variables (disp : Order.disp_t) (L : orderType disp).
Variable F : realFieldType.
Variable ln : F -> F.
Variables (p n : nat).
Variables (coords : 'M[F]_(n, p)) (values : n.-tuple L).
Variable t : 'rV[F]_p.

Local Notation classes := (classes_of values).
Local Notation k := (size (classes_of values)).
Local Notation coords' := (shift_rows t coords).

Lemma bilDl (A : 'M[F]_p) (u v w : 'rV[F]_p) :
  bil A (u + v) w = bil A u w + bil A v w.
Proof. by rewrite /bil !mulmxDl !mxE. Qed.

Lemma bilDr (A : 'M[F]_p) (u v w : 'rV[F]_p) :
  bil A u (v + w) = bil A u v + bil A u w.
Proof. by rewrite /bil linearD /= mulmxDr !mxE. Qed.

Lemma row_shift (m : nat) (X : 'M[F]_(m, p)) (i : 'I_m) :
  row i (shift_rows t X) = row i X + t.
Proof. by rewrite rowK. Qed.

Lemma class_mean_shift (c : L) :
  c \in classes ->
  class_mean coords' values c = class_mean coords values c + t.
Proof.
move=> Hc; rewrite /class_mean.
under eq_bigr => i _ do rewrite row_shift.
rewrite big_split /= scalerDr; congr (_ + _).
rewrite -(sum_selected coords values (fun=> t) c).
rewrite big_const_seq count_predT iter_addr_0 size_selected.
rewrite -scaler_nat scalerA mulVf ?scale1r // pnatr_eq0 -lt0n.
exact: count_label_gt0.
Qed.

Lemma residual_shift (i : 'I_n) :
  residual coords' values i = residual coords values i.
Proof.
rewrite /residual row_shift class_mean_shift ?label_in_classes //.
by rewrite opprD addrACA subrr addr0.
Qed.

Lemma class_scatter_shift (c : L) :
  class_scatter coords' values c = class_scatter coords values c.
Proof.
apply: eq_bigr => i /eqP Hi.
have Hc : c \in classes by rewrite -Hi label_in_classes.
by rewrite row_shift class_mean_shift // opprD addrACA subrr addr0.
Qed.

Lemma class_covariance_shift (c : L) :
  class_covariance coords' values c = class_covariance coords values c.
Proof. by rewrite /class_covariance class_scatter_shift. Qed.

Lemma pooled_covariance_shift :
  pooled_covariance coords' values = pooled_covariance coords values.
Proof.
rewrite /pooled_covariance /within_scatter; congr (_ *: _).
by apply: eq_bigr => i _; rewrite residual_shift.
Qed.

Section Samples.
Variables (m : nat) (samples : 'M[F]_(m, p)).
Local Notation samples' := (shift_rows t samples).

Lemma qda_score_shift (c : L) (i : 'I_m) :
  c \in classes ->
  qda_score ln coords' values samples' c i
  = qda_score ln coords values samples c i.
Proof.
move=> Hc; rewrite /qda_score class_covariance_shift row_shift.
by rewrite class_mean_shift // opprD addrACA subrr addr0.
Qed.

Lemma lda_score_shift (A : 'M[F]_p) (c : L) (i : 'I_m) :
  A^T = A -> c \in classes ->
  lda_score ln coords' values samples' A c i
  = lda_score ln coords values samples A c i
    + (bil A (row i samples) t + 2%:R^-1 * bil A t t).
Proof.
move=> HA Hc; rewrite /lda_score row_shift class_mean_shift //.
rewrite !bilDl !bilDr (bil_sym t _ HA).
set a := bil A (row i samples) _; set b := bil A (row i samples) t.
set d := bil A (class_mean _ _ _) (class_mean _ _ _).
set e := bil A (class_mean _ _ _) t; set f := bil A t t.
set g := ln _.
by field.
Qed.



End Samples.
End Translation.

(** ** Column sums and sample sizes *)

Section ColumnSums.
Variables (disp : Order.disp_t) (L : orderType disp).

(** X13: every column of the indicator matrix sums to the number of
    observations of its class, which is at least 1. *)
Theorem indicator_matrix_column_sums (values : seq L) (c0 : L) (j : nat) :
  (j < size (classes_of values))%N ->
  exists2 M, indicator_matrix values = Returns M
    & \sum_(0 <= i < size values) cell M i j
      = (count_mem (nth c0 (classes_of values) j) values)%:Z
      /\ (0 < count_mem (nth c0 (classes_of values) j) values)%N.
Proof.
move=> Hj; exists (indicator_frame values); first exact: indicator_matrix_eq.
set c := nth c0 _ j; split; last first.
  by rewrite -has_count has_pred1 -mem_classes_of mem_nth.
rewrite (eq_big_nat _ _ (F2 := fun i => (nat_of_bool (nth c0 values i == c))%:Z)).
  by move=> i /andP[_ Hi]; rewrite (cell_indicator c0).
rewrite -(big_nth c0 xpredT (fun v => (nat_of_bool (v == c))%:Z)).
by rewrite sum_bool_count.
Qed.

End ColumnSums.

Section SampleSize.
Variables (disp : Order.disp_t) (L : orderType disp).
Variable F : realFieldType.
Variable ln : F -> F.
Variables (p n : nat).
Variables (coords : 'M[F]_(n, p)) (values : n.-tuple L).

Local Notation classes := (classes_of values).
Local Notation k := (size (classes_of values)).


End SampleSize.

(** ** Invertible linear maps of the features *)

Section LinearMap.
Variables (disp : Order.disp_t) (L : orderType disp).
Variable F : realFieldType.
Variable ln : F -> F.
Variables (p n : nat).
Variables (coords : 'M[F]_(n, p)) (values : n.-tuple L).
Variable T : 'M[F]_p.
Hypothesis HT : T \in unitmx.

Local Notation classes := (classes_of values).
Local Notation k := (size (classes_of values)).
Local Notation coords' := (coords *m T).

Lemma invmx_congruence (G : 'M[F]_p) :
  G \in unitmx -> T *m invmx (T^T *m G *m T) *m T^T = invmx G.
Proof.
move=> HG; set G' := T^T *m G *m T.
have HG' : G' \in unitmx by rewrite !unitmx_mul unitmx_tr HT HG.
have HTt : T^T \in unitmx by rewrite unitmx_tr.
have H1 : G *m (T *m invmx G' *m T^T) = 1%:M.
  have -> : G *m (T *m invmx G' *m T^T) = invmx T^T *m G' *m invmx G' *m T^T.
    by rewrite /G' !mulmxA mulVmx // mul1mx.
  by rewrite mulmxK // mulVmx.
by rewrite -[LHS](mulKmx HG) H1 mulmx1.
Qed.

Lemma class_mean_mulmx (c : L) :
  class_mean coords' values c = class_mean coords values c *m T.
Proof.
rewrite /class_mean -scalemxAl mulmx_suml; congr (_ *: _).
by apply: eq_bigr => i _; rewrite row_mul.
Qed.

Lemma residual_mulmx (i : 'I_n) :
  residual coords' values i = residual coords values i *m T.
Proof. by rewrite /residual row_mul class_mean_mulmx mulmxBl. Qed.

Lemma pooled_covariance_mulmx :
  pooled_covariance coords' values
  = T^T *m pooled_covariance coords values *m T.
Proof.
rewrite /pooled_covariance -scalemxAr -scalemxAl; congr (_ *: _).
rewrite /within_scatter mulmx_sumr mulmx_suml; apply: eq_bigr => i _.
by rewrite residual_mulmx trmx_mul !mulmxA.
Qed.

Section Samples.
Variables (m : nat) (samples : 'M[F]_(m, p)).

Lemma bil_mulmx (A : 'M[F]_p) (u v : 'rV[F]_p) :
  bil A (u *m T) (v *m T) = bil (T *m A *m T^T) u v.
Proof. by rewrite /bil trmx_mul !mulmxA. Qed.


End Samples.
End LinearMap.

(** ** The order of the training rows *)

Section LeastSquaresScores.
Variables (disp : Order.disp_t) (L : orderType disp).
Variable F : realFieldType.
Variables (p n : nat).
Variables (coords : 'M[F]_(n, p)) (values : n.-tuple L).
Local Notation classes := (classes_of values).

Lemma ls_classify_record (m : nat) (samples : 'M[F]_(m, p)) (i : 'I_m) :
  ls_classify {| ls_classes := classes;
                 ls_betahat := invmx (coords^T *m coords) *m coords^T
                               *m indicator_mx F values |} samples i
  = idxmax classes [seq ls_score coords values samples c i | c <- classes].
Proof.
rewrite /ls_classify /apply_idxmax /ls_scores /=; congr (idxmax _ _).
apply: (@eq_from_nth _ 0); first by rewrite size_row_seq size_map.
move=> j; rewrite size_row_seq => Hj.
rewrite (nth_row_seq _ i (Ordinal Hj)).
have [c1 _] : exists c1 : L, c1 \in classes.
  by case: (classes) Hj => // c1 cs1 _; exists c1; rewrite mem_head.
rewrite (nth_map c1) // /ls_score !mulmxA -!row_mul !mxE.
apply: eq_bigr => r _.
by rewrite [indicator_mx _ _ _ _]mxE [(\col_r0 _) _ _]mxE (tnth_nth c1 (in_tuple _)).
Qed.

End LeastSquaresScores.

Section Reorder.
Variables (disp : Order.disp_t) (L : orderType disp).
Variable F : realFieldType.
Variable ln : F -> F.
Variables (p n : nat).
Variables (coords : 'M[F]_(n, p)) (values : n.-tuple L).
Variable h : 'I_n -> 'I_n.
Hypothesis Hh : injective h.

Local Notation classes := (classes_of values).
Local Notation k := (size (classes_of values)).
Local Notation coords' := (reorder_rows h coords).
Local Notation values' := (reorder_labels h values).

Lemma row_reorder (i : 'I_n) : row i coords' = row (h i) coords.
Proof. by rewrite rowK. Qed.

Lemma tnth_reorder (i : 'I_n) : tnth values' i = tnth values (h i).
Proof. by rewrite tnth_mktuple. Qed.

Lemma reorder_labels_perm : perm_eq values' values.
Proof.
rewrite -[X in perm_eq _ X]map_tnth_enum /= -val_ord_tuple.
have -> : [seq tnth values (h i) | i <- \val (ord_tuple n)]
          = [seq tnth values i | i <- [seq h i | i <- \val (ord_tuple n)]].
  by rewrite -map_comp.
apply: perm_map.
rewrite val_ord_tuple; apply: uniq_perm.
- by rewrite map_inj_uniq ?enum_uniq.
- exact: enum_uniq.
- by move=> i; rewrite mem_enum -codomE injF_onto.
Qed.

Lemma classes_reorder : classes_of values' = classes.
Proof.
apply/perm_sortP; [exact: le_total | exact: le_trans | exact: le_anti |].
by apply: perm_undup; apply: perm_mem; apply: reorder_labels_perm.
Qed.

Lemma count_reorder (c : L) : count_mem c values' = count_mem c values.
Proof. by move/permP: reorder_labels_perm; apply. Qed.

Lemma sum_reorder (V : zmodType) (c : L) (f : 'I_n -> V) :
  \sum_(i < n | tnth values' i == c) f (h i)
  = \sum_(i < n | tnth values i == c) f i.
Proof.
rewrite [RHS](reindex_inj Hh) /=.
by apply: eq_bigl => i; rewrite tnth_reorder.
Qed.

Lemma class_mean_reorder (c : L) :
  class_mean coords' values' c = class_mean coords values c.
Proof.
rewrite /class_mean count_reorder; congr (_ *: _).
rewrite -(sum_reorder c (fun i => row i coords)).
by apply: eq_bigr => i _; rewrite row_reorder.
Qed.

Lemma class_covariance_reorder (c : L) :
  class_covariance coords' values' c = class_covariance coords values c.
Proof.
rewrite /class_covariance count_reorder; congr (_ *: _).
rewrite /class_scatter class_mean_reorder.
rewrite -(sum_reorder c (fun i => (row i coords - class_mean coords values c)^T
                                  *m (row i coords - class_mean coords values c))).
by apply: eq_bigr => i _; rewrite row_reorder.
Qed.

Lemma pooled_covariance_reorder :
  pooled_covariance coords' values' = pooled_covariance coords values.
Proof.
rewrite /pooled_covariance classes_reorder; congr (_ *: _).
rewrite /within_scatter [RHS](reindex_inj Hh) /=.
apply: eq_bigr => i _.
by rewrite /residual row_reorder tnth_reorder class_mean_reorder.
Qed.

Lemma class_prior_reorder (c : L) :
  class_prior F values' c = class_prior F values c.
Proof. by rewrite /class_prior count_reorder. Qed.

Lemma gram_reorder : coords'^T *m coords' = coords^T *m coords.
Proof.
apply/matrixP => a b; rewrite !mxE [RHS](reindex_inj Hh) /=.
by apply: eq_bigr => i _; rewrite !mxE.
Qed.

Section Samples.
Variables (m : nat) (samples : 'M[F]_(m, p)).

Lemma ls_score_reorder (c : L) (i : 'I_m) :
  ls_score coords' values' samples c i = ls_score coords values samples c i.
Proof.
rewrite /ls_score gram_reorder -!mulmxA; congr ((_ *m (_ *m _)) 0 0).
apply/matrixP => a b; rewrite !mxE [RHS](reindex_inj Hh) /=.
by apply: eq_bigr => r _; rewrite !mxE tnth_reorder.
Qed.




End Samples.
End Reorder.

(** ** Convex decision regions; reading labels back *)

Section Convexity.
Variables (disp : Order.disp_t) (L : orderType disp).
Variable F : realFieldType.

Lemma idxmax_label (index : seq L) (f : L -> F) (c c0 : L) :
  uniq index ->
  idxmax index [seq f x | x <- index] = Val c ->
  exists2 r, first_max [seq f x | x <- index] r & nth c0 index r = c.
Proof.
move=> Hu Hc.
have Hk : (0 < size [seq f x | x <- index])%N.
  by case: (index) Hc.
have [r Hr Hfm] := idxmax_first_max c0 (esym (size_map f index)) Hk.
by exists r => //; move: Hc; rewrite Hr => -[].
Qed.

Lemma idxmax_convex (index : seq L) (f g h : L -> F) (a : F) (c : L) :
  uniq index -> 0 <= a <= 1 ->
  {in index, forall x, h x = a * f x + (1 - a) * g x} ->
  idxmax index [seq f x | x <- index] = Val c ->
  idxmax index [seq g x | x <- index] = Val c ->
  idxmax index [seq h x | x <- index] = Val c.
Proof.
move=> Hu /andP[Ha0 Ha1] Hh Hf Hg.
have [r [Hr Hmaxf Hfirstf] Hrc] := idxmax_label c Hu Hf.
have [r' [Hr' Hmaxg Hfirstg] Hrc'] := idxmax_label c Hu Hg.
move: Hr Hr'; rewrite !size_map => Hr Hr'.
have Er : r' = r.
  by apply/eqP; rewrite -(nth_uniq c Hr' Hr Hu) Hrc Hrc'.
move: Er Hmaxg Hfirstg Hr' Hrc' => -> Hmaxg Hfirstg _ _.
have Hb0 : 0 <= 1 - a by rewrite subr_ge0.
have Hnth (s : L -> F) j : (j < size index)%N ->
    nth 0 [seq s x | x <- index] j = s (nth c index j).
  by move=> Hj; rewrite (nth_map c).
have Hfm : first_max [seq h x | x <- index] r.
  split; rewrite ?size_map // => j.
  - move=> Hj; rewrite !Hnth // !Hh ?mem_nth //.
    have := Hmaxf j; have := Hmaxg j; rewrite !size_map !Hnth //.
    move=> /(_ Hj) Hg' /(_ Hj) Hf'.
    by rewrite lerD // ler_wpM2l.
  - move=> Hj; have Hj' := ltn_trans Hj Hr.
    rewrite !Hnth // !Hh ?mem_nth //.
    have := Hfirstf j Hj; have := Hfirstg j Hj; rewrite !Hnth // => Hg' Hf'.
    have [Hpos|Hle] := ltP 0 a.
      by rewrite ltr_leD ?ltr_pM2l // ler_wpM2l // ltW.
    have -> : a = 0 by apply/eqP; rewrite eq_le Ha0 Hle.
    by rewrite !mul0r !add0r subr0 !mul1r.
have Hk : (0 < size [seq h x | x <- index])%N.
  by rewrite size_map (leq_ltn_trans _ Hr).
have [r2 -> Hfm2] := idxmax_first_max c (esym (size_map h index)) Hk.
by rewrite (first_max_uniq Hfm2 Hfm) Hrc.
Qed.

Lemma bilZl (q : nat) (A : 'M[F]_q) (b : F) (u v : 'rV[F]_q) :
  bil A (b *: u) v = b * bil A u v.
Proof. by rewrite /bil -!scalemxAl mxE. Qed.

Variable ln : F -> F.
Variables (p n : nat).
Variables (coords : 'M[F]_(n, p)) (values : n.-tuple L).

(** X26: the set of sample rows that a fitted least-squares classifier
    gives one label is convex: if two rows get the label c, every convex
    combination of them gets c. *)
Theorem ls_decision_regions_convex (clf : LeastSquaresClassifier L F p)
    (m : nat) (x y : 'M[F]_(m, p)) (a : F) (i : 'I_m) (c : L) :
  LeastSquaresClassifier_init coords values = Returns clf ->
  0 <= a <= 1 ->
  ls_classify clf x i = Val c -> ls_classify clf y i = Val c ->
  ls_classify clf (a *: x + (1 - a) *: y) i = Val c.
Proof.
rewrite ls_init_eq; case: ifP => // _ [<-] Ha.
rewrite !ls_classify_record => Hx Hy.
apply: (idxmax_convex (classes_of_uniq values) Ha _ Hx Hy).
move=> c' _; rewrite /ls_score.
by rewrite linearD /= !linearZ /= !mulmxDl -!scalemxAl !mxE.
Qed.

(** X27: the set of sample rows that a fitted LDA object gives one label
    is convex. *)
Theorem lda_decision_regions_convex
    (clf : LinearDiscriminantClassifier L F p)
    (m : nat) (x y : 'M[F]_(m, p)) (a : F) (i : 'I_m) (c : L) :
  LinearDiscriminantClassifier_init ln coords values = Returns clf ->
  0 <= a <= 1 ->
  lda_classify clf x i = Val c -> lda_classify clf y i = Val c ->
  lda_classify clf (a *: x + (1 - a) *: y) i = Val c.
Proof.
rewrite lda_init_eq; case: ifP => [_ [<-] //|_].
case: ifP => // _ [<-] Ha.
rewrite !lda_classify_record => Hx Hy.
apply: (idxmax_convex (classes_of_uniq values) Ha _ Hx Hy).
move=> c' _; rewrite /lda_score.
rewrite linearD /= !linearZ /= bilDl !bilZl.
set u := bil _ (row i x) _; set v := bil _ (row i y) _; set w := ln _ - _.
by ring.
Qed.

End Convexity.

Section Decode.
Variables (disp : Order.disp_t) (L : orderType disp).
Variable F : realFieldType.

(** X28: reading a row of the indicator matrix back with idxmax gives the
    label of that row. *)
Theorem indicator_matrix_decode (values : seq L) (c0 : L) (i : nat) :
  (i < size values)%N ->
  exists2 M, indicator_matrix values = Returns M
    & idxmax (unzip1 M) [seq (cell M i j)%:~R : F | j <- iota 0 (size M)]
      = Val (nth c0 values i).
Proof.
move=> Hi; exists (indicator_frame values); first exact: indicator_matrix_eq.
have -> : unzip1 (indicator_frame values) = classes_of values.
  by rewrite /unzip1 /indicator_frame -map_comp map_id_in.
rewrite -(@idxmax_indicator _ L F values (nth c0 values i)) ?mem_nth //.
congr (idxmax _ _); rewrite size_map.
apply: (@eq_from_nth _ 0); first by rewrite !size_map size_iota.
move=> j; rewrite size_map size_iota => Hj.
rewrite (nth_map 0%N) ?size_iota // nth_iota // add0n (nth_map c0) //.
by rewrite (cell_indicator c0) //; case: (_ == _).
Qed.

End Decode.

(** ** The statements above on the example tables *)

Lemma pair_classes : classes_of pair_values = [:: 0%N; 1%N].
Proof. by rewrite /pair_values table_labels. Qed.

Lemma pair_first_feature (i : 'I_(size pair_data)) : pair_coords i ord0 = 1.
Proof.
rewrite /pair_coords !mxE (tnth_nth (0%N, [::])) /=.
by case: i => [[|[|[|i]]] Hi].
Qed.

Lemma zero_ls_fit :
  fit example_log LS zero_sample single_values = Raises LinAlgError.
Proof.
by rewrite /fit ls_init_eq /zero_sample mulmx0 unitmxE det0 unitr0.
Qed.

Lemma intercept_unit : intercept_coords \in unitmx.
Proof.
pose B : 'M[rat]_2 := \matrix_(i, j)
  (if (i : nat) == j then 1 else if (j : nat) == 0%N then -1 else 0).
suff /mulmx1_unit[] : intercept_coords *m B = 1%:M by [].
apply/matrixP => i j; rewrite !mxE !big_ord_recl big_ord0 !mxE /=.
by case: i => [[|[|i]] Hi] //=; case: j => [[|[|j]] Hj] //=.
Qed.

Lemma intercept_ls_init :
  LeastSquaresClassifier_init intercept_coords unit_values
  = Returns intercept_ls.
Proof.
have Hu : intercept_coords^T *m intercept_coords \in unitmx.
  by rewrite unitmx_mul unitmx_tr intercept_unit.
by rewrite ls_init_eq Hu.
Qed.

Lemma double_unit : double \in unitmx.
Proof. by rewrite unitmxE det_scalar unitfE. Qed.





Lemma error_rate_extremes_witness :
  (classification_error_rate (LeastSquares unit_ls) zero_sample [tuple 1%N]
   = Returns (Val 0)
   <-> forall i,
         ls_classify unit_ls zero_sample i = Val (tnth [tuple 1%N] i))
  /\ (classification_error_rate (LeastSquares unit_ls) zero_sample
        [tuple 1%N] = Returns (Val 1)
      <-> forall i,
            ls_classify unit_ls zero_sample i != Val (tnth [tuple 1%N] i)).
Proof.
by apply: (@error_rate_extremes _ _ _ _ (LeastSquares unit_ls) 1 zero_sample).
Defined.

Lemma lda_singleton_error_rate_witness :
  classification_error_rate
    (LinearDiscriminant
       (lda_record example_log single_coords single_values NaN NaN))
    single_sample single_values
  = Returns (Val 1).
Proof.
apply: (@lda_singleton_error_rate _ _ _ example_log _ _ _ single_coords
          single_values) => //.
by rewrite /fit single_lda_init.
Defined.

Lemma lda_sigma_zero_on_singletons_witness :
  foldl (lda_sigma_step (group_means unit_coords unit_values)) (Returns 0)
        [seq (row i unit_coords, tnth unit_values i) | i <- enum 'I_2]
  = Returns 0.
Proof. by apply: lda_sigma_zero_on_singletons. Defined.

Lemma indicator_matrix_column_sums_witness :
  exists2 M, indicator_matrix [:: 2%N; 0%N; 2%N] = Returns M
    & \sum_(0 <= i < 3) cell M i 1
      = (count_mem (nth 0%N (classes_of [:: 2%N; 0%N; 2%N]) 1)
           [:: 2%N; 0%N; 2%N])%:Z
      /\ (0 < count_mem (nth 0%N (classes_of [:: 2%N; 0%N; 2%N]) 1)
                [:: 2%N; 0%N; 2%N])%N.
Proof. by apply: (@indicator_matrix_column_sums _ _ [:: 2%N; 0%N; 2%N]). Defined.










Lemma ls_classify_scale_witness :
  ls_classify unit_ls (2%:R *: second_unit) =1 ls_classify unit_ls second_unit.
Proof. by apply: ls_classify_scale. Defined.






Example unit_ls_third : ls_classify unit_ls third_unit ord0 = Val 1%N.
Proof.
rewrite /ls_classify /ls_scores /unit_ls /= /unit_coords.
rewrite !trmx1 !mulmx1 invmx1 !mul1mx /apply_idxmax.
have -> : row_seq (third_unit *m indicator_mx rat unit_values) ord0
          = [:: 0; 3%:R].
  apply: (@eq_from_nth _ 0); first by rewrite size_row_seq.
  move=> j; rewrite size_row_seq => Hj.
  rewrite (nth_row_seq _ ord0 (Ordinal Hj)) !mxE !big_ord_recl big_ord0 !mxE /=.
  rewrite !(tnth_nth 0%N) /=.
  by case: j Hj => [|[|j]] //= _; rewrite ?mul0r ?mulr0 ?mulr1 ?mul1r ?addr0 ?add0r.
by [].
Qed.

Example cross_lda_at_ten : lda_classify cross_lda at_ten ord0 = Val 1%N.
Proof.
rewrite /cross_lda lda_classify_record cross_classes /=.
rewrite /lda_score cross_pooled invmx_scalar !bil_scalar !cross_prior //.
rewrite cross_mean0 cross_mean1 !big_ord_recl !big_ord0 !mxE /=.
rewrite /idxmax /np_argmax /argmax_from /example_log.
set x := (X in X < _); set y := (X in _ < X).
have -> : x < y by rewrite /x /y; lra.
by [].
Qed.

Lemma half_unit_interval : 0 <= (2%:R^-1 : rat) <= 1.
Proof. by rewrite invr_ge0 ler0n invf_le1 ?ltr0n // ler1n. Qed.

Lemma ls_decision_regions_convex_witness :
  ls_classify unit_ls
    (2%:R^-1 *: second_unit + (1 - 2%:R^-1) *: third_unit) ord0
  = Val 1%N.
Proof.
apply: (ls_decision_regions_convex unit_ls_init half_unit_interval).
- exact: unit_ls_second.
- exact: unit_ls_third.
Defined.

Lemma lda_decision_regions_convex_witness :
  lda_classify cross_lda
    (2%:R^-1 *: near_ten + (1 - 2%:R^-1) *: at_ten) ord0
  = Val 1%N.
Proof.
apply: (lda_decision_regions_convex cross_lda_init half_unit_interval).
- exact: cross_lda_near_ten.
- exact: cross_lda_at_ten.
Defined.

Lemma indicator_matrix_decode_witness :
  exists2 M, indicator_matrix [:: 2%N; 0%N; 2%N] = Returns M
    & idxmax (unzip1 M) [seq (cell M 0 j)%:~R : rat | j <- iota 0 (size M)]
      = Val 2%N.
Proof. exact: (@indicator_matrix_decode _ _ rat [:: 2%N; 0%N; 2%N] 0%N 0). Defined.

